(** * The native-ts scanner (src/compiler/lexer/Lexer.cpp, Token.h, Lexer.h,
      UserOpts.h) as a shallow embedding, and its checked properties.

    The scanner is a byte-level state machine over a NUL-terminated source
    buffer.  Its state ([Lexer]) is threaded explicitly; every loop of the
    source ([goto beginLexer], [while (true)], [do ... while]) becomes a
    structural recursion on a fuel counter that is decremented once per
    iteration, so that a run that never leaves a loop is visible as
    [OutOfFuel] for every amount of fuel.  A read of [ptr[k]] outside the
    buffer and its terminating NUL is undefined in C++ and is reported as
    [OutOfBounds]. *)

From Stdlib Require Import ZArith List Bool Lia String Ascii.
Import ListNotations.
Local Open Scope Z_scope.

(** ** Bytes *)

(** A [char] of the buffer is kept as its unsigned value, [0 .. 255]. *)
Definition byte := Z.

Definition chr (c : ascii) : byte := Z.of_N (N_of_ascii c).
Arguments chr c%_char.

Fixpoint bytes_of_string (s : string) : list byte :=
  match s with
  | EmptyString => []
  | String c s' => chr c :: bytes_of_string s'
  end.

(** [static_cast<uint32_t>(x)] of a (signed) [char]: sign extension followed
    by reduction modulo 2^32. *)
Definition to_uint32 (x : byte) : Z :=
  (if x <? 128 then x else x - 256) mod 2 ^ 32.

(** Lexer.h: [isHorizontalWhitespace]. *)
Definition isHorizontalWhitespace (c : byte) : bool :=
  (c =? 9) || (c =? 11) || (c =? 12) || (c =? chr " ").

(** Lexer.h: [isAscii], [static_cast<uint8_t>(c) < 0x80]. *)
Definition isAscii (c : byte) : bool := c mod 256 <? 128.

(** Lexer.cpp: [#define isDigit(x) ((static_cast<uint32_t>(x) - '0') < 10)],
    the subtraction being unsigned 32-bit. *)
Definition isDigit (x : byte) : bool :=
  (to_uint32 x - chr "0") mod 2 ^ 32 <? 10.

(** Lexer.cpp: [#define isOctalDigit(x) ((static_cast<uint32_t>(x) - '0') < 8)]. *)
Definition isOctalDigit (x : byte) : bool :=
  (to_uint32 x - chr "0") mod 2 ^ 32 <? 8.

(** Lexer.cpp: [#define isBinaryDigit(x) (x == '0' || x == '1')]. *)
Definition isBinaryDigit (x : byte) : bool :=
  (x =? chr "0") || (x =? chr "1").

(** Modelled from the spec: [isHexDigit], which [lexHexNumericLiteral]
    calls and whose declaration is not among the sources.  It is the spec's
    "valid digit of that radix" for radix 16, which is also the set of bytes
    that the digit loop of [lexHexNumericLiteral] itself accepts. *)
Definition isHexDigit (x : byte) : bool :=
  ((chr "0" <=? x) && (x <=? chr "9"))
  || ((chr "a" <=? x) && (x <=? chr "f"))
  || ((chr "A" <=? x) && (x <=? chr "F")).

(** Lexer.cpp: [#define isUnicodeLT(x) (x == 0x2028 || x == 0x2029)]. *)
Definition isUnicodeLT (cp : Z) : bool := (cp =? 0x2028) || (cp =? 0x2029).

(** ** Tokens (Token.h) *)

Inductive TokenKind :=
| FileEnd
| LeftCurly | RightCurly | LeftParenthasis | RightParenthasis
| LeftSquare | RightSquare | Dot | DotDotDot | Semicolon | Comma
| Less | Greater | LessEquals | GreaterEquals | EqualsEquals
| ExclaimationEquals | EqualsEqualsEquals | ExclaimationEqualsEquals
| EqualsGreater | Plus | Minus | AsteriskAsterisk | Asterisk | Slash
| Percent | PlusPlus | MinusMinus | LessLess | LessSlash | GreaterGreater
| GreaterGreaterGreater | Ampersand | Bar | Caret | Exclaimation | Tilde
| AmpersandAmpersand | BarBar | Question | QuestionQuestion | QuestionDot
| Colon | Equals | PlusEquals | MinusEquals | AsteriskEquals
| AsteriskAsteriskEquals | SlashEquals | PercentEquals | LessLessEquals
| GreaterGreaterEquals | GreaterGreaterGreaterEquals | AmpersandEquals
| BarEquals | CaretEquals | BarBarEquals | AmpersandAmpersandEquals
| QuestionQuestionEquals
| ZeroLiteral | ZeroBigIntLiteral | DecimalLiteral | DecimalBigIntLiteral
| FloatLiteral | HexLiteral | HexBigIntLiteral | OctalLiteral
| OctalBigIntLiteral | BinaryLiteral | BinaryBigIntLiteral | StringLiteral.

(** [llvm::StringRef] into the source buffer: offset of the first byte from
    [bufPtr], and length.  Nothing is copied. *)
Record StringRef := mkStringRef { data : nat; size : nat }.

Module Token.

Record t := mk {
  kind : TokenKind;
  line : Z;
  col : Z;
  text : StringRef;
  afterLineTerminator : bool
}.

(** The four-argument overload of [Token::set]. *)
Definition set (tok : t) (k : TokenKind) (l c : Z) (a : bool) : t :=
  {| kind := k; line := l; col := c; text := text tok;
     afterLineTerminator := a |}.

(** The five-argument overload of [Token::set]. *)
Definition setText (tok : t) (k : TokenKind) (l c : Z) (a : bool)
    (x : StringRef) : t :=
  {| kind := k; line := l; col := c; text := x;
     afterLineTerminator := a |}.

End Token.

(** The kinds that the scanner only ever writes through the five-argument
    overload, that is, together with a lexeme. *)
Definition hasLexeme (k : TokenKind) : bool :=
  match k with
  | DecimalLiteral | DecimalBigIntLiteral | FloatLiteral | HexLiteral
  | HexBigIntLiteral | OctalLiteral | OctalBigIntLiteral | BinaryLiteral
  | BinaryBigIntLiteral | StringLiteral => true
  | _ => false
  end.

(** ** Diagnostics: what is written to [llvm::errs()] *)

Inductive Message :=
| UnexpectedNull
| InvalidUTF8
| InvalidNumericSeparator (found : byte)
| MalformedRadixInt (type prefix : string) (found : byte)
| UnexpectedEndOfFileInComment
| LegacyOctalInStrictMode.

Record Diagnostic := mkDiagnostic {
  dPath : string;
  dLine : Z;
  dCol : Z;
  dMessage : Message
}.

(** ** Scanner state (Lexer.h) *)

(** UserOpts.h: the process-wide option record. *)
Record UserOpts := mkUserOpts { strictModeEnabled : bool }.

(** [buf] is the memory from [bufPtr] up to, not including, [endPtr]; the
    byte at [endPtr] is the NUL that [llvm::MemoryBuffer::getFile] appends.
    [ptr] is kept as its offset from [bufPtr].  [line] and [col] are C++
    [int]s: their overflow is undefined in the source and not modelled, the
    counters are unbounded here.  [errs] is the diagnostic stream, oldest
    message first. *)
Record Lexer := mkLexer {
  buf : list byte;
  ptr : nat;
  filePath : string;
  lexerFailed : bool;
  line : Z;
  col : Z;
  errs : list Diagnostic
}.

Definition bufPtr (st : Lexer) : nat := 0%nat.
Definition endPtr (st : Lexer) : nat := List.length (buf st).

Definition with_ptr (st : Lexer) (p : nat) : Lexer :=
  {| buf := buf st; ptr := p; filePath := filePath st;
     lexerFailed := lexerFailed st; line := line st; col := col st;
     errs := errs st |}.

Definition with_line (st : Lexer) (l : Z) : Lexer :=
  {| buf := buf st; ptr := ptr st; filePath := filePath st;
     lexerFailed := lexerFailed st; line := l; col := col st;
     errs := errs st |}.

Definition with_col (st : Lexer) (c : Z) : Lexer :=
  {| buf := buf st; ptr := ptr st; filePath := filePath st;
     lexerFailed := lexerFailed st; line := line st; col := c;
     errs := errs st |}.

(** [llvm::errs() << ... << filePath << ": " << l << ":" << c << m]. *)
Definition print (st : Lexer) (l c : Z) (m : Message) : Lexer :=
  {| buf := buf st; ptr := ptr st; filePath := filePath st;
     lexerFailed := lexerFailed st; line := line st; col := col st;
     errs := errs st ++ [mkDiagnostic (filePath st) l c m] |}.

(** A message goes to the stream and [lexerFailed = true]. *)
Definition report (st : Lexer) (l c : Z) (m : Message) : Lexer :=
  {| buf := buf st; ptr := ptr st; filePath := filePath st;
     lexerFailed := true; line := line st; col := col st;
     errs := errs st ++ [mkDiagnostic (filePath st) l c m] |}.

(** [ptr += n; col += n]. *)
Definition advance (n : nat) (st : Lexer) : Lexer :=
  with_col (with_ptr st (ptr st + n)) (col st + Z.of_nat n).

(** [++line; col = 1; ptr += n]. *)
Definition newline (n : nat) (st : Lexer) : Lexer :=
  with_ptr (with_col (with_line st (line st + 1)) 1) (ptr st + n).

(** The constructor [Lexer::Lexer]: a leading UTF-8 byte order mark is
    skipped. *)
Definition Lexer_new (b : list byte) (path : string) : Lexer :=
  {| buf := b;
     ptr := match b with
            | 0xef :: 0xbb :: 0xbf :: _ => 3
            | _ => 0
            end;
     filePath := path; lexerFailed := false; line := 1; col := 1;
     errs := [] |}.

(** ** Memory reads and outcomes *)

(** [ptr[k]]: a byte of the buffer, the NUL at [endPtr], or nothing. *)
Definition peek (st : Lexer) (k : nat) : option byte :=
  match nth_error (buf st) (ptr st + k) with
  | Some b => Some b
  | None => if (ptr st + k =? endPtr st)%nat then Some 0 else None
  end.

Inductive outcome (A : Type) :=
| Ret (a : A)
| OutOfBounds (st : Lexer)
| OutOfFuel.
Arguments Ret {A} a.
Arguments OutOfBounds {A} st.
Arguments OutOfFuel {A}.

Definition bind {A B} (m : outcome A) (f : A -> outcome B) : outcome B :=
  match m with
  | Ret a => f a
  | OutOfBounds st => OutOfBounds st
  | OutOfFuel => OutOfFuel
  end.

Notation "'do' x <- m ; f" := (bind m (fun x => f))
  (at level 10, x pattern, m at level 100, f at level 200).

Notation "'read' b := st [ k ] ; f" :=
  (match peek st k%nat with Some b => f | None => OutOfBounds st end)
  (at level 10, b name, st at level 9, f at level 200).

(** ** UTF-8 decoding

    [decodeUTF8] is [llvm::convertUTF8Sequence] with [strictConversion], a
    function of LLVM's Support library (ConvertUTF.cpp), outside the
    repository.  The model follows that implementation: the table of
    trailing bytes, [isLegalUTF8], the accumulation of the code point and
    the rejection of surrogates. *)

Inductive ConversionResult :=
| conversionOK | sourceExhausted | targetExhausted | sourceIllegal.

Definition trailingBytesForUTF8 (b : byte) : nat :=
  if b <? 0xC0 then 0 else if b <? 0xE0 then 1 else if b <? 0xF0 then 2
  else if b <? 0xF8 then 3 else if b <? 0xFC then 4 else 5.

Definition offsetsFromUTF8 (extra : nat) : Z :=
  match extra with
  | 0%nat => 0 | 1%nat => 0x3080 | 2%nat => 0xE2080 | 3%nat => 0x3C82080
  | 4%nat => 0xFA082080 | _ => 0x82082080
  end.

Definition isTrail (a : byte) : bool := (0x80 <=? a) && (a <=? 0xBF).

Definition isLegalUTF8 (s : list byte) : bool :=
  match s with
  | [] => false
  | [b0] => negb ((0x80 <=? b0) && (b0 <? 0xC2)) && (b0 <=? 0xF4)
  | b0 :: b1 :: rest =>
      (List.length rest <=? 2)%nat
      && forallb isTrail rest
      && isTrail b1
      && (if b0 =? 0xE0 then 0xA0 <=? b1
          else if b0 =? 0xED then b1 <=? 0x9F
          else if b0 =? 0xF0 then 0x90 <=? b1
          else if b0 =? 0xF4 then b1 <=? 0x8F
          else 0x80 <=? b1)
      && negb ((0x80 <=? b0) && (b0 <? 0xC2))
      && (b0 <=? 0xF4)
  end.

(** [src] is the memory from [*source] to [sourceEnd]; the result is the
    conversion result, the number of bytes by which [*source] has moved,
    and the code point. *)
Definition convertUTF8Sequence (src : list byte)
    : ConversionResult * nat * Z :=
  match src with
  | [] => (sourceExhausted, 0%nat, 0)
  | b0 :: _ =>
      let n := S (trailingBytesForUTF8 b0) in
      if (List.length src <? n)%nat then (sourceExhausted, 0%nat, 0)
      else
        let s := firstn n src in
        if negb (isLegalUTF8 s) then (sourceIllegal, 0%nat, 0)
        else
          let ch := fold_left (fun acc b => acc * 64 + b) s 0
                    - offsetsFromUTF8 (trailingBytesForUTF8 b0) in
          if ch <=? 0x10FFFF then
            if (0xD800 <=? ch) && (ch <=? 0xDFFF)
            then (sourceIllegal, 0%nat, 0)
            else (conversionOK, n, ch)
          else (sourceIllegal, n, 0xFFFD)
  end.

(** Lexer.cpp: the macro [decodeUTF8(ptr, endPtr, &cp)]. *)
Definition decodeUTF8 (st : Lexer) : ConversionResult * Lexer * Z :=
  let '(r, n, cp) := convertUTF8Sequence (skipn (ptr st) (buf st)) in
  (r, with_ptr st (ptr st + n), cp).

Definition isOK (r : ConversionResult) : bool :=
  match r with conversionOK => true | _ => false end.

(** ** The diagnostic helpers *)

(** The helper raises the flag and then increments [line] and [col]; the
    pointer is not touched. *)
Definition diagnoseUnexpectedNull (st : Lexer) : Lexer :=
  let st1 := report st (line st) (col st) UnexpectedNull in
  with_col (with_line st1 (line st1 + 1)) (col st1 + 1).

Definition diagnoseInvalidUTF8 (st : Lexer) : Lexer :=
  let st1 := report st (line st) (col st) InvalidUTF8 in
  with_ptr st1 (ptr st1 + 1).

(** The column is pre-incremented inside the message ([<< ++col]). *)
Definition diagnoseInvalidNumericSeparator (st : Lexer) : outcome Lexer :=
  let st1 := with_col st (col st + 1) in
  read c := st1[0];
  Ret (report st1 (line st1) (col st1) (InvalidNumericSeparator c)).

Definition diagnoseMalformedRadixInt (type prefix : string) (st : Lexer)
    : outcome Lexer :=
  read c := st[0];
  Ret (report st (line st) (col st) (MalformedRadixInt type prefix c)).

(** ** Comment scanners *)

(** The [while (true)] of [lexSingleLineComment]. *)
Fixpoint lexSingleLineComment_loop (fuel : nat) (st : Lexer)
    (afterLineTerminator : bool) (tok : Token.t)
    : outcome (bool * Lexer * Token.t) :=
  match fuel with
  | O => OutOfFuel
  | S f =>
    read c := st[0];
    if c =? 0 then
      if (ptr st =? endPtr st)%nat then
        Ret (false, st,
             Token.set tok FileEnd (line st) (col st) afterLineTerminator)
      else
        lexSingleLineComment_loop f (diagnoseUnexpectedNull st)
          afterLineTerminator tok
    else if c =? 10 then Ret (true, newline 1 st, tok)
    else if c =? 13 then
      read c1 := st[1];
      Ret (true, newline (if c1 =? 10 then 2 else 1) st, tok)
    else if isAscii c then
      lexSingleLineComment_loop f (advance 1 st) afterLineTerminator tok
    else
      let '(r, st1, cp) := decodeUTF8 st in
      if negb (isOK r) then
        lexSingleLineComment_loop f (diagnoseInvalidUTF8 st1)
          afterLineTerminator tok
      else if isUnicodeLT cp then
        Ret (true, with_col (with_line st1 (line st1 + 1)) 1, tok)
      else
        lexSingleLineComment_loop f (with_col st1 (col st1 + 1))
          afterLineTerminator tok
  end.

Definition lexSingleLineComment (fuel : nat) (st : Lexer)
    (afterLineTerminator : bool) (tok : Token.t)
    : outcome (bool * Lexer * Token.t) :=
  lexSingleLineComment_loop fuel (advance 2 st) afterLineTerminator tok.

(** The [while (true)] of [lexMultiLineComment]; [afterLineTerminator] is
    passed by reference in the source and is returned here. *)
Fixpoint lexMultiLineComment_loop (fuel : nat) (st : Lexer)
    (afterLineTerminator : bool) (tok : Token.t)
    : outcome (bool * Lexer * Token.t * bool) :=
  match fuel with
  | O => OutOfFuel
  | S f =>
    read c := st[0];
    if c =? chr "*" then
      read c1 := st[1];
      if c1 =? chr "/" then
        Ret (true, advance 2 st, tok, afterLineTerminator)
      else
        lexMultiLineComment_loop f (advance 1 st) afterLineTerminator tok
    else if c =? 0 then
      if (ptr st =? endPtr st)%nat then
        (* the message is printed; lexerFailed is not assigned here *)
        let st1 :=
          print st (line st) (col st) UnexpectedEndOfFileInComment in
        Ret (false, st1,
             Token.set tok FileEnd (line st) (col st) afterLineTerminator,
             afterLineTerminator)
      else
        lexMultiLineComment_loop f (diagnoseUnexpectedNull st)
          afterLineTerminator tok
    else if c =? 10 then
      lexMultiLineComment_loop f (newline 1 st) true tok
    else if c =? 13 then
      read c1 := st[1];
      lexMultiLineComment_loop f (newline (if c1 =? 10 then 2 else 1) st)
        true tok
    else if isAscii c then
      lexMultiLineComment_loop f (advance 1 st) afterLineTerminator tok
    else
      let '(r, st1, cp) := decodeUTF8 st in
      if negb (isOK r) then
        lexMultiLineComment_loop f (diagnoseInvalidUTF8 st1)
          afterLineTerminator tok
      else if isUnicodeLT cp then
        lexMultiLineComment_loop f
          (with_col (with_line st1 (line st1 + 1)) 1) true tok
      else
        lexMultiLineComment_loop f (with_col st1 (col st1 + 1))
          afterLineTerminator tok
  end.

Definition lexMultiLineComment (fuel : nat) (st : Lexer)
    (afterLineTerminator : bool) (tok : Token.t)
    : outcome (bool * Lexer * Token.t * bool) :=
  lexMultiLineComment_loop fuel (advance 2 st) afterLineTerminator tok.

(** ** Numeric literal scanners *)

(** The lexeme [{startPtr, SIZE_T(ptr - startPtr)}]. *)
Definition lexeme (startPtr : nat) (st : Lexer) : StringRef :=
  mkStringRef startPtr (ptr st - startPtr).

(** The case labels ['0'] ... ['9'] of the digit loops. *)
Definition caseDecimal (c : byte) : bool :=
  (chr "0" <=? c) && (c <=? chr "9").

(** The case labels ['0'] ... ['7']. *)
Definition caseOctal (c : byte) : bool :=
  (chr "0" <=? c) && (c <=? chr "7").

(** The case labels ['0'] ... ['9'], ['a'] ... ['f'], ['A'] ... ['F']. *)
Definition caseHex (c : byte) : bool :=
  caseDecimal c
  || ((chr "a" <=? c) && (c <=? chr "f"))
  || ((chr "A" <=? c) && (c <=? chr "F")).

(** The case labels ['0'], ['1']. *)
Definition caseBinary (c : byte) : bool :=
  (c =? chr "0") || (c =? chr "1").

(** [do { ++ptr; ++col; } while (isDigit(ptr[0]))], the fraction part of
    [lexFloatLiteral]. *)
Fixpoint lexFloatLiteral_fraction (fuel : nat) (st : Lexer)
    : outcome Lexer :=
  match fuel with
  | O => OutOfFuel
  | S f =>
    let st1 := advance 1 st in
    read c := st1[0];
    if isDigit c then lexFloatLiteral_fraction f st1 else Ret st1
  end.

(** The exponent loop of [lexFloatLiteral]. *)
Fixpoint lexFloatLiteral_exponent (fuel : nat) (startPtr : nat)
    (startCol : Z) (afterLineTerminator : bool) (st : Lexer)
    (tok : Token.t) : outcome (Lexer * Token.t) :=
  match fuel with
  | O => OutOfFuel
  | S f =>
    read c := st[0];
    if caseDecimal c then
      lexFloatLiteral_exponent f startPtr startCol afterLineTerminator
        (advance 1 st) tok
    else if c =? chr "_" then
      read c1 := st[1];
      if negb (isDigit c1) then
        do st1 <- diagnoseInvalidNumericSeparator st;
        Ret (with_ptr st1 (ptr st1 + 1),
             Token.setText tok FloatLiteral (line st1) startCol
               afterLineTerminator (lexeme startPtr st1))
      else
        lexFloatLiteral_exponent f startPtr startCol afterLineTerminator
          (advance 2 st) tok
    else
      Ret (st, Token.setText tok FloatLiteral (line st) startCol
                 afterLineTerminator (lexeme startPtr st))
  end.

Definition lexFloatLiteral (fuel : nat) (startPtr : nat) (startCol : Z)
    (afterLineTerminator : bool) (st : Lexer) (tok : Token.t)
    : outcome (Lexer * Token.t) :=
  do st1 <- lexFloatLiteral_fraction fuel st;
  read c := st1[0];
  if negb (c =? chr "e") && negb (c =? chr "E") then
    Ret (st1, Token.setText tok FloatLiteral (line st1) startCol
                afterLineTerminator (lexeme startPtr st1))
  else
    read c1 := st1[1];
    let st2 :=
      if (c1 =? chr "+") || (c1 =? chr "-") then advance 2 st1
      else advance 1 st1 in
    lexFloatLiteral_exponent fuel startPtr startCol afterLineTerminator
      st2 tok.

(** The [while (true)] of [lexNumericLiteral]. *)
Fixpoint lexNumericLiteral_loop (fuel : nat) (startPtr : nat)
    (startCol : Z) (afterLineTerminator : bool) (st : Lexer)
    (tok : Token.t) : outcome (Lexer * Token.t) :=
  match fuel with
  | O => OutOfFuel
  | S f =>
    read c := st[0];
    if caseDecimal c then
      lexNumericLiteral_loop f startPtr startCol afterLineTerminator
        (advance 1 st) tok
    else if c =? chr "_" then
      read c1 := st[1];
      if negb (isDigit c1) then
        do st1 <- diagnoseInvalidNumericSeparator st;
        Ret (with_ptr st1 (ptr st1 + 1),
             Token.setText tok DecimalLiteral (line st1) startCol
               afterLineTerminator (lexeme startPtr st1))
      else
        lexNumericLiteral_loop f startPtr startCol afterLineTerminator
          (advance 2 st) tok
    else if c =? chr "n" then
      Ret (advance 1 st,
           Token.setText tok DecimalBigIntLiteral (line st) startCol
             afterLineTerminator (lexeme startPtr st))
    else if c =? chr "." then
      lexFloatLiteral f startPtr startCol afterLineTerminator st tok
    else
      Ret (st, Token.setText tok DecimalLiteral (line st) startCol
                 afterLineTerminator (lexeme startPtr st))
  end.

Definition lexNumericLiteral (fuel : nat) (st : Lexer)
    (afterLineTerminator : bool) (tok : Token.t)
    : outcome (Lexer * Token.t) :=
  lexNumericLiteral_loop fuel (ptr st) (col st) afterLineTerminator
    (advance 1 st) tok.

(** [lexHexNumericLiteral], [lexOctalNumericLiteral] and
    [lexBinaryNumericLiteral] are the same text up to the case labels of the
    digit loop ([caseDigit]), the digit test used after the prefix and after
    a separator ([isRadixDigit]), the two token kinds and the strings of the
    diagnostic; they are written once. *)
Section RadixLiteral.

Variable caseDigit : byte -> bool.
Variable isRadixDigit : byte -> bool.
Variable literal bigIntLiteral : TokenKind.
Variable type prefix : string.

Fixpoint lexRadixLiteral_loop (fuel : nat) (startPtr : nat)
    (startCol : Z) (afterLineTerminator : bool) (st : Lexer)
    (tok : Token.t) : outcome (Lexer * Token.t) :=
  match fuel with
  | O => OutOfFuel
  | S f =>
    read c := st[0];
    if caseDigit c then
      lexRadixLiteral_loop f startPtr startCol afterLineTerminator
        (advance 1 st) tok
    else if c =? chr "_" then
      read c1 := st[1];
      if negb (isRadixDigit c1) then
        do st1 <- diagnoseInvalidNumericSeparator st;
        Ret (advance 1 st1,
             Token.setText tok literal (line st1) startCol
               afterLineTerminator (lexeme startPtr st1))
      else
        lexRadixLiteral_loop f startPtr startCol afterLineTerminator
          (advance 2 st) tok
    else if c =? chr "n" then
      Ret (advance 1 st,
           Token.setText tok bigIntLiteral (line st) startCol
             afterLineTerminator (lexeme startPtr st))
    else
      Ret (st, Token.setText tok literal (line st) startCol
                 afterLineTerminator (lexeme startPtr st))
  end.

Definition lexRadixLiteral (fuel : nat) (st : Lexer)
    (afterLineTerminator : bool) (tok : Token.t)
    : outcome (Lexer * Token.t) :=
  let startCol := col st in
  let st1 := advance 2 st in
  let startPtr := ptr st1 in
  read c := st1[0];
  if negb (isRadixDigit c) then
    do st2 <- diagnoseMalformedRadixInt type prefix st1;
    Ret (st2, Token.set tok ZeroLiteral (line st2) startCol
                afterLineTerminator)
  else
    lexRadixLiteral_loop fuel startPtr startCol afterLineTerminator
      (advance 1 st1) tok.

End RadixLiteral.

Definition lexHexNumericLiteral :=
  lexRadixLiteral caseHex isHexDigit HexLiteral HexBigIntLiteral
    "hexadecimal" "0x".

Definition lexOctalNumericLiteral :=
  lexRadixLiteral caseOctal isOctalDigit OctalLiteral OctalBigIntLiteral
    "octal" "0o".

Definition lexBinaryNumericLiteral :=
  lexRadixLiteral caseBinary isBinaryDigit BinaryLiteral BinaryBigIntLiteral
    "binary" "0b".

(** The [while (true)] of [lexLegacyOctalLiteral]: no BigInt suffix, and
    the strict-mode report after the token has been written. *)
Fixpoint lexLegacyOctalLiteral_loop (opts : UserOpts) (fuel : nat)
    (startPtr : nat) (startCol : Z) (afterLineTerminator : bool)
    (st : Lexer) (tok : Token.t) : outcome (Lexer * Token.t) :=
  match fuel with
  | O => OutOfFuel
  | S f =>
    read c := st[0];
    if caseOctal c then
      lexLegacyOctalLiteral_loop opts f startPtr startCol
        afterLineTerminator (advance 1 st) tok
    else if c =? chr "_" then
      read c1 := st[1];
      if negb (isOctalDigit c1) then
        do st1 <- diagnoseInvalidNumericSeparator st;
        Ret (advance 1 st1,
             Token.setText tok OctalLiteral (line st1) startCol
               afterLineTerminator (lexeme startPtr st1))
      else
        lexLegacyOctalLiteral_loop opts f startPtr startCol
          afterLineTerminator (advance 2 st) tok
    else
      let tok1 := Token.setText tok OctalLiteral (line st) startCol
                    afterLineTerminator (lexeme startPtr st) in
      if strictModeEnabled opts then
        Ret (report st (line st) startCol LegacyOctalInStrictMode, tok1)
      else Ret (st, tok1)
  end.

Definition lexLegacyOctalLiteral (opts : UserOpts) (fuel : nat)
    (st : Lexer) (afterLineTerminator : bool) (tok : Token.t)
    : outcome (Lexer * Token.t) :=
  lexLegacyOctalLiteral_loop opts fuel (ptr st + 1) (col st)
    afterLineTerminator (advance 2 st) tok.

(** ** String literal scanners *)

(** [lexDoubleQuoteStrLiteral] and [lexSingleQuoteStrLiteral] differ in the
    closing byte only.  Neither compares [ptr] with [endPtr]. *)
Fixpoint lexStrLiteral_loop (quote : byte) (fuel : nat) (startPtr : nat)
    (startCol : Z) (afterLineTerminator : bool) (st : Lexer)
    (tok : Token.t) : outcome (Lexer * Token.t) :=
  match fuel with
  | O => OutOfFuel
  | S f =>
    read c := st[0];
    if c =? quote then
      Ret (advance 1 st,
           Token.setText tok StringLiteral (line st) startCol
             afterLineTerminator (lexeme startPtr st))
    else if isAscii c then
      lexStrLiteral_loop quote f startPtr startCol afterLineTerminator
        (advance 1 st) tok
    else
      let '(r, st1, cp) := decodeUTF8 st in
      if negb (isOK r) then
        lexStrLiteral_loop quote f startPtr startCol afterLineTerminator
          (diagnoseInvalidUTF8 st1) tok
      else
        lexStrLiteral_loop quote f startPtr startCol afterLineTerminator
          (with_col st1 (col st1 + 1)) tok
  end.

Definition lexDoubleQuoteStrLiteral (fuel : nat) (st : Lexer)
    (afterLineTerminator : bool) (tok : Token.t)
    : outcome (Lexer * Token.t) :=
  lexStrLiteral_loop 34 fuel (ptr st + 1) (col st) afterLineTerminator
    (advance 1 st) tok.

Definition lexSingleQuoteStrLiteral (fuel : nat) (st : Lexer)
    (afterLineTerminator : bool) (tok : Token.t)
    : outcome (Lexer * Token.t) :=
  lexStrLiteral_loop (chr "'") fuel (ptr st + 1) (col st)
    afterLineTerminator (advance 1 st) tok.

(** ** The dispatcher [Lexer::lexToken] *)

(** [while (isHorizontalWhitespace(ptr[0])) { ++col; ++ptr; }]. *)
Fixpoint skipHorizontalWhitespace (fuel : nat) (st : Lexer)
    : outcome Lexer :=
  match fuel with
  | O => OutOfFuel
  | S f =>
    read c := st[0];
    if isHorizontalWhitespace c
    then skipHorizontalWhitespace f (advance 1 st)
    else Ret st
  end.

(** [tok.set(k, line, col, afterLineTerminator); ptr += n; col += n;
    return;], the shape of every punctuator case but one. *)
Definition emit (k : TokenKind) (n : nat) (st : Lexer)
    (afterLineTerminator : bool) (tok : Token.t)
    : outcome (Lexer * Token.t) :=
  Ret (advance n st,
       Token.set tok k (line st) (col st) afterLineTerminator).

(** The body of [lexToken] from the label [beginLexer]; each
    [goto beginLexer] is a recursive call.  The [switch] has no [default]
    label: a byte without a case falls out of it and the function returns
    with the slot as it was. *)
Fixpoint lexToken_loop (opts : UserOpts) (fuel : nat) (st0 : Lexer)
    (afterLineTerminator : bool) (tok : Token.t)
    : outcome (Lexer * Token.t) :=
  match fuel with
  | O => OutOfFuel
  | S f =>
    do st <- skipHorizontalWhitespace f st0;
    let alt := afterLineTerminator in
    read c := st[0];
    if c =? 0 then
      if (ptr st =? endPtr st)%nat then
        Ret (st, Token.set tok FileEnd (line st) (col st) alt)
      else lexToken_loop opts f (diagnoseUnexpectedNull st) alt tok
    else if c =? 10 then lexToken_loop opts f (newline 1 st) true tok
    else if c =? 13 then
      read c1 := st[1];
      lexToken_loop opts f (newline (if c1 =? 10 then 2 else 1) st) true tok
    else if c =? chr "{" then emit LeftCurly 1 st alt tok
    else if c =? chr "}" then emit RightCurly 1 st alt tok
    else if c =? chr "(" then emit LeftParenthasis 1 st alt tok
    else if c =? chr ")" then emit RightParenthasis 1 st alt tok
    else if c =? chr "[" then emit LeftSquare 1 st alt tok
    else if c =? chr "]" then emit RightSquare 1 st alt tok
    else if c =? chr ";" then emit Semicolon 1 st alt tok
    else if c =? chr "," then emit Comma 1 st alt tok
    else if c =? chr ":" then emit Colon 1 st alt tok
    else if c =? chr "." then
      read c1 := st[1];
      if c1 =? chr "." then
        read c2 := st[2];
        if c2 =? chr "." then emit DotDotDot 3 st alt tok
        else emit Dot 1 st alt tok
      else emit Dot 1 st alt tok
    else if c =? chr "<" then
      read c1 := st[1];
      if c1 =? chr "=" then emit LessEquals 2 st alt tok
      else if c1 =? chr "<" then
        read c2 := st[2];
        if c2 =? chr "=" then emit LessLessEquals 3 st alt tok
        else emit LessLess 2 st alt tok
      else if c1 =? chr "/" then emit LessSlash 2 st alt tok
      else emit Less 1 st alt tok
    else if c =? chr ">" then
      read c1 := st[1];
      if c1 =? chr "=" then emit GreaterEquals 2 st alt tok
      else if c1 =? chr ">" then
        read c2 := st[2];
        if c2 =? chr ">" then
          read c3 := st[3];
          if c3 =? chr "=" then emit GreaterGreaterGreaterEquals 4 st alt tok
          else emit GreaterGreaterGreater 3 st alt tok
        else if c2 =? chr "=" then emit GreaterGreaterEquals 3 st alt tok
        else emit GreaterGreater 2 st alt tok
      else emit Greater 1 st alt tok
    else if c =? chr "=" then
      read c1 := st[1];
      if c1 =? chr "=" then
        read c2 := st[2];
        if c2 =? chr "=" then emit EqualsEqualsEquals 3 st alt tok
        else emit EqualsEquals 2 st alt tok
      else if c1 =? chr ">" then emit EqualsGreater 2 st alt tok
      else emit Equals 1 st alt tok
    else if c =? chr "!" then
      read c1 := st[1];
      if c1 =? chr "=" then
        read c2 := st[2];
        if c2 =? chr "=" then emit ExclaimationEqualsEquals 3 st alt tok
        else emit ExclaimationEquals 2 st alt tok
      else emit Exclaimation 1 st alt tok
    else if c =? chr "+" then
      read c1 := st[1];
      if c1 =? chr "+" then emit PlusPlus 2 st alt tok
      else if c1 =? chr "=" then emit PlusEquals 2 st alt tok
      else emit Plus 1 st alt tok
    else if c =? chr "-" then
      read c1 := st[1];
      if c1 =? chr "-" then emit MinusMinus 2 st alt tok
      else if c1 =? chr "=" then emit MinusEquals 2 st alt tok
      else emit Minus 1 st alt tok
    else if c =? chr "*" then
      read c1 := st[1];
      if c1 =? chr "*" then
        read c2 := st[2];
        if c2 =? chr "=" then emit AsteriskAsteriskEquals 3 st alt tok
        else emit AsteriskAsterisk 2 st alt tok
      else if c1 =? chr "=" then emit AsteriskEquals 2 st alt tok
      else emit Asterisk 1 st alt tok
    else if c =? chr "/" then
      read c1 := st[1];
      if c1 =? chr "=" then emit SlashEquals 2 st alt tok
      else if c1 =? chr "/" then
        do r <- lexSingleLineComment f st alt tok;
        let '(more, st1, tok1) := r in
        if more then lexToken_loop opts f st1 true tok1
        else Ret (st1, tok1)
      else if c1 =? chr "*" then
        do r <- lexMultiLineComment f st alt tok;
        let '(more, st1, tok1, alt1) := r in
        if more then lexToken_loop opts f st1 alt1 tok1
        else Ret (st1, tok1)
      else emit Slash 1 st alt tok
    else if c =? chr "%" then
      read c1 := st[1];
      if c1 =? chr "=" then emit PercentEquals 2 st alt tok
      else emit Percent 1 st alt tok
    else if c =? chr "&" then
      read c1 := st[1];
      if c1 =? chr "=" then emit AmpersandEquals 2 st alt tok
      else if c1 =? chr "&" then
        read c2 := st[2];
        if c2 =? chr "=" then emit AmpersandAmpersandEquals 3 st alt tok
        else emit AmpersandAmpersand 2 st alt tok
      else emit Ampersand 1 st alt tok
    else if c =? chr "|" then
      read c1 := st[1];
      if c1 =? chr "=" then emit BarEquals 2 st alt tok
      else if c1 =? chr "|" then
        read c2 := st[2];
        if c2 =? chr "=" then emit BarBarEquals 3 st alt tok
        else emit BarBar 2 st alt tok
      else emit Bar 1 st alt tok
    else if c =? chr "^" then
      read c1 := st[1];
      if c1 =? chr "=" then emit CaretEquals 2 st alt tok
      else emit Caret 1 st alt tok
    else if c =? chr "~" then emit Tilde 1 st alt tok
    else if c =? chr "?" then
      read c1 := st[1];
      if c1 =? chr "?" then
        read c2 := st[2];
        if c2 =? chr "=" then emit QuestionQuestionEquals 3 st alt tok
        else emit QuestionQuestion 2 st alt tok
      else if c1 =? chr "." then emit QuestionDot 2 st alt tok
      else
        (* tok.set(Question, line, col++, ...); ++col; return; *)
        Ret (with_col st (col st + 1 + 1),
             Token.set tok Question (line st) (col st) alt)
    else if (chr "1" <=? c) && (c <=? chr "9") then
      lexNumericLiteral f st alt tok
    else if c =? chr "0" then
      read c1 := st[1];
      if c1 =? chr "." then
        (* lexFloatLiteral(tok, ptr++, col++, afterLineTerminator) *)
        lexFloatLiteral f (ptr st) (col st) alt (advance 1 st) tok
      else if (c1 =? chr "x") || (c1 =? chr "X") then
        lexHexNumericLiteral f st alt tok
      else if (c1 =? chr "O") || (c1 =? chr "o") then
        lexOctalNumericLiteral f st alt tok
      else if (c1 =? chr "b") || (c1 =? chr "B") then
        lexBinaryNumericLiteral f st alt tok
      else if c1 =? chr "n" then emit ZeroBigIntLiteral 2 st alt tok
      else if caseOctal c1 then lexLegacyOctalLiteral opts f st alt tok
      else
        (* tok.set(ZeroLiteral, line, col, ...); return; *)
        Ret (st, Token.set tok ZeroLiteral (line st) (col st) alt)
    else if c =? 34 then lexDoubleQuoteStrLiteral f st alt tok
    else if c =? chr "'" then lexSingleQuoteStrLiteral f st alt tok
    else Ret (st, tok)
  end.

(** [Lexer::lexToken]: the local flag starts out false. *)
Definition lexToken (opts : UserOpts) (fuel : nat) (st : Lexer)
    (tok : Token.t) : outcome (Lexer * Token.t) :=
  lexToken_loop opts fuel st false tok.

(** [n] successive calls of [lexToken] on one slot, the way the caller of
    the scanner drives it. *)
Fixpoint lexToken_repeat (opts : UserOpts) (fuel : nat) (n : nat)
    (st : Lexer) (tok : Token.t) : outcome (Lexer * Token.t) :=
  match n with
  | O => Ret (st, tok)
  | S n' =>
    do r <- lexToken opts fuel st tok;
    lexToken_repeat opts fuel n' (fst r) (snd r)
  end.

(** ** Vocabulary of the statements *)

(** Postcondition of a run that returns; nothing is said of a run that
    does not. *)
Definition post {A} (P : A -> Prop) (o : outcome A) : Prop :=
  match o with
  | Ret a => P a
  | _ => True
  end.

(** The four ways in which [lexToken] can leave the slot: untouched; a
    [FileEnd] written by the four-argument [set], with the pointer at
    [endPtr]; another kind written by the four-argument [set]; a literal
    written together with its lexeme. *)
Inductive writes (tok : Token.t) (st' : Lexer) (tok' : Token.t) : Prop :=
| writes_nothing :
    tok' = tok -> writes tok st' tok'
| writes_FileEnd l c a :
    tok' = Token.set tok FileEnd l c a -> ptr st' = endPtr st' ->
    writes tok st' tok'
| writes_plain k l c a :
    tok' = Token.set tok k l c a -> hasLexeme k = false -> k <> FileEnd ->
    writes tok st' tok'
| writes_lexeme k l c a x :
    tok' = Token.setText tok k l c a x -> hasLexeme k = true ->
    writes tok st' tok'.

Definition writes_post (tok : Token.t) (r : Lexer * Token.t) : Prop :=
  writes tok (fst r) (snd r).

(** A comment scanner either asks for more scanning and leaves the slot
    alone, or has written [FileEnd] at the end of the buffer. *)
Definition comment_post (tok : Token.t) (more : bool) (st' : Lexer)
    (tok' : Token.t) : Prop :=
  if more then tok' = tok
  else ptr st' = endPtr st'
       /\ exists l c a, tok' = Token.set tok FileEnd l c a.

(** The case labels of the [switch] of [lexToken], the digits ['1'] to
    ['9'] apart. *)
Definition caseLabels : list byte :=
  [0; 10; 13; chr "{"; chr "}"; chr "("; chr ")"; chr "["; chr "]";
   chr ";"; chr ","; chr ":"; chr "."; chr "<"; chr ">"; chr "=";
   chr "!"; chr "+"; chr "-"; chr "*"; chr "/"; chr "%"; chr "&";
   chr "|"; chr "^"; chr "~"; chr "?"; chr "0"; 34; chr "'"].

(** The one message that is printed without [lexerFailed] being set. *)
Definition isEndOfFileInComment (m : Message) : bool :=
  match m with UnexpectedEndOfFileInComment => true | _ => false end.

(** Some message of [d] is one that sets [lexerFailed]. *)
Definition flagged (d : list Diagnostic) : bool :=
  existsb (fun x => negb (isEndOfFileInComment (dMessage x))) d.

(** [st'] is a later state of the scan that was in [st]: same buffer and
    path, pointer and line not smaller, the diagnostics of [st] followed by
    new ones, and [lexerFailed] raised exactly by the new ones that set
    it. *)
Record extends (st st' : Lexer) : Prop := mkExtends {
  ext_buf : buf st' = buf st;
  ext_path : filePath st' = filePath st;
  ext_ptr : (ptr st <= ptr st')%nat;
  ext_line : line st <= line st';
  ext_errs : exists d,
      errs st' = errs st ++ d
      /\ lexerFailed st' = lexerFailed st || flagged d
}.

(** The slot holds a lexeme that starts at [sp] and ends at or before the
    pointer of the returned state. *)
Definition lexeme_post (sp : nat) (r : Lexer * Token.t) : Prop :=
  data (Token.text (snd r)) = sp
  /\ (sp + size (Token.text (snd r)) <= ptr (fst r))%nat.

(** The slot's text is what it was, or a lexeme that lies between the
    position [p] and the pointer of the returned state. *)
Definition text_post (p : nat) (tok : Token.t) (r : Lexer * Token.t)
    : Prop :=
  Token.text (snd r) = Token.text tok
  \/ ((p <= data (Token.text (snd r)))%nat
      /\ (data (Token.text (snd r)) + size (Token.text (snd r))
          <= ptr (fst r))%nat).

(** Two outcomes that differ at most by the strict-mode report on a legacy
    octal literal in the first one. *)
Definition strict_rel (o1 o2 : outcome (Lexer * Token.t)) : Prop :=
  match o1, o2 with
  | Ret (s1, t1), Ret (s2, t2) =>
      t1 = t2
      /\ (s1 = s2 \/ exists c, s1 = report s2 (line s2) c
                                    LegacyOctalInStrictMode)
  | OutOfBounds s1, OutOfBounds s2 => s1 = s2
  | OutOfFuel, OutOfFuel => True
  | _, _ => False
  end.

(** The bytes that a single-line comment passes over one at a time. *)
Definition plainCommentByte (b : byte) : bool :=
  isAscii b && negb (b =? 0) && negb (b =? 10) && negb (b =? 13).

(** The bytes that a multi-line comment passes over one at a time without
    touching line or flag. *)
Definition plainBlockByte (b : byte) : bool :=
  plainCommentByte b && negb (b =? chr "*").

(** The scanner state over a buffer that has [pre] in front of it. *)
Definition relocate (pre : list byte) (st : Lexer) : Lexer :=
  {| buf := pre ++ buf st; ptr := List.length pre + ptr st;
     filePath := filePath st; lexerFailed := lexerFailed st;
     line := line st; col := col st; errs := errs st |}.

Definition relocateRef (k : nat) (x : StringRef) : StringRef :=
  mkStringRef (k + data x) (size x).

Definition relocateToken (k : nat) (tok : Token.t) : Token.t :=
  Token.mk (Token.kind tok) (Token.line tok) (Token.col tok)
    (relocateRef k (Token.text tok)) (Token.afterLineTerminator tok).

Definition relocateOutcome {A B} (pre : list byte) (f : A -> B)
    (o : outcome A) : outcome B :=
  match o with
  | Ret a => Ret (f a)
  | OutOfBounds st => OutOfBounds (relocate pre st)
  | OutOfFuel => OutOfFuel
  end.

Definition relocateResult (pre : list byte) (r : Lexer * Token.t)
    : Lexer * Token.t :=
  (relocate pre (fst r), relocateToken (List.length pre) (snd r)).

Definition relocateComment (pre : list byte) (r : bool * Lexer * Token.t)
    : bool * Lexer * Token.t :=
  (fst (fst r), relocate pre (snd (fst r)),
   relocateToken (List.length pre) (snd r)).

Definition relocateBlockComment (pre : list byte)
    (r : bool * Lexer * Token.t * bool) : bool * Lexer * Token.t * bool :=
  (fst (fst (fst r)), relocate pre (snd (fst (fst r))),
   relocateToken (List.length pre) (snd (fst r)), snd r).





(** The pointer lies in [[bufPtr, endPtr]]. *)
Definition in_bounds (st : Lexer) : Prop :=
  (bufPtr st <= ptr st <= endPtr st)%nat.

(** One step of symbolic execution of a scanner body: split on the next
    read or test. *)
Ltac split_step :=
  match goal with
  | |- context [match peek ?s ?k with _ => _ end] =>
      destruct (peek s k) eqn:?; [| exact I]
  | |- context [match decodeUTF8 ?s with _ => _ end] =>
      destruct (decodeUTF8 s) as [[? ?] ?] eqn:?
  | |- context [if ?c then _ else _] => destruct c eqn:?
  | |- context [bind (diagnoseInvalidNumericSeparator ?s) _] =>
      unfold diagnoseInvalidNumericSeparator
  | |- context [bind (diagnoseMalformedRadixInt _ _ ?s) _] =>
      unfold diagnoseMalformedRadixInt
  end.

Ltac finish_writes :=
  simpl; unfold writes_post; simpl;
  first
    [ eapply writes_lexeme; [reflexivity | reflexivity]
    | eapply writes_plain; [reflexivity | reflexivity | discriminate]
    | apply writes_nothing; reflexivity ].

(** * Properties *)

(** ** Reads stay inside the buffer and its terminator *)

Lemma peek_some_le st k b :
  peek st k = Some b -> (ptr st + k <= endPtr st)%nat.
Proof.
  unfold peek, endPtr. destruct (nth_error (buf st) (ptr st + k)) eqn:E.
  - intros _. apply Nat.lt_le_incl. apply nth_error_Some. congruence.
  - destruct (Nat.eqb_spec (ptr st + k) (List.length (buf st)));
      [lia | discriminate].
Qed.

Lemma peek_nonzero_lt st k b :
  peek st k = Some b -> b <> 0 -> (ptr st + k < endPtr st)%nat.
Proof.
  unfold peek, endPtr. destruct (nth_error (buf st) (ptr st + k)) eqn:E.
  - intros _ _. apply nth_error_Some. congruence.
  - destruct (Nat.eqb_spec (ptr st + k) (List.length (buf st)));
      [| discriminate].
    intros [= <-] H. now elim H.
Qed.

Lemma peek_at_end st :
  ptr st = endPtr st -> peek st 0 = Some 0.
Proof.
  intros H. unfold peek. rewrite Nat.add_0_r.
  destruct (nth_error (buf st) (ptr st)) eqn:E.
  - assert (ptr st < List.length (buf st))%nat
      by (apply nth_error_Some; congruence).
    unfold endPtr in H. lia.
  - rewrite H, Nat.eqb_refl. reflexivity.
Qed.

Lemma peek_advance n st k :
  peek (advance n st) k = peek st (n + k).
Proof. unfold peek, advance, endPtr. simpl. now rewrite Nat.add_assoc. Qed.

Lemma advance_advance a b st :
  advance a (advance b st) = advance (b + a) st.
Proof.
  unfold advance, with_col, with_ptr. simpl. f_equal; lia.
Qed.

(** ** What a call writes into the slot *)

Lemma post_bind {A B} (Q : B -> Prop) (m : outcome A) (f : A -> outcome B) :
  post (fun a => post Q (f a)) m -> post Q (bind m f).
Proof. destruct m; simpl; auto. Qed.

Lemma lexSingleLineComment_loop_post fuel : forall st alt tok,
  post (fun r => comment_post tok (fst (fst r)) (snd (fst r)) (snd r))
       (lexSingleLineComment_loop fuel st alt tok).
Proof.
  induction fuel as [| f IH]; intros st alt tok; [exact I |].
  cbn [lexSingleLineComment_loop].
  repeat split_step; try apply IH; simpl; try reflexivity.
  split; [now apply Nat.eqb_eq | eauto].
Qed.

Lemma lexMultiLineComment_loop_post fuel : forall st alt tok,
  post (fun r => comment_post tok (fst (fst (fst r))) (snd (fst (fst r)))
                   (snd (fst r)))
       (lexMultiLineComment_loop fuel st alt tok).
Proof.
  induction fuel as [| f IH]; intros st alt tok; [exact I |].
  cbn [lexMultiLineComment_loop].
  repeat split_step; try apply IH; simpl; try reflexivity.
  split; [now apply Nat.eqb_eq | eauto].
Qed.

Lemma lexFloatLiteral_exponent_writes fuel : forall sp sc alt st tok,
  post (writes_post tok) (lexFloatLiteral_exponent fuel sp sc alt st tok).
Proof.
  induction fuel as [| f IH]; intros sp sc alt st tok; [exact I |].
  cbn [lexFloatLiteral_exponent].
  repeat split_step; try apply IH; finish_writes.
Qed.

Lemma lexFloatLiteral_writes fuel sp sc alt st tok :
  post (writes_post tok) (lexFloatLiteral fuel sp sc alt st tok).
Proof.
  unfold lexFloatLiteral. apply post_bind.
  destruct (lexFloatLiteral_fraction fuel st) as [st1 | |]; simpl; auto.
  repeat split_step;
    try apply lexFloatLiteral_exponent_writes; finish_writes.
Qed.

Lemma lexNumericLiteral_loop_writes fuel : forall sp sc alt st tok,
  post (writes_post tok) (lexNumericLiteral_loop fuel sp sc alt st tok).
Proof.
  induction fuel as [| f IH]; intros sp sc alt st tok; [exact I |].
  cbn [lexNumericLiteral_loop].
  repeat split_step; try apply IH; try apply lexFloatLiteral_writes;
    finish_writes.
Qed.

Lemma lexNumericLiteral_writes fuel st alt tok :
  post (writes_post tok) (lexNumericLiteral fuel st alt tok).
Proof. apply lexNumericLiteral_loop_writes. Qed.

Section RadixLiteralWrites.

Variable caseDigit isRadixDigit : byte -> bool.
Variable literal bigIntLiteral : TokenKind.
Variable type prefix : string.
Hypothesis literal_lexeme : hasLexeme literal = true.
Hypothesis bigIntLiteral_lexeme : hasLexeme bigIntLiteral = true.

Lemma lexRadixLiteral_loop_writes fuel : forall sp sc alt st tok,
  post (writes_post tok)
       (lexRadixLiteral_loop caseDigit isRadixDigit literal bigIntLiteral
          fuel sp sc alt st tok).
Proof.
  induction fuel as [| f IH]; intros sp sc alt st tok; [exact I |].
  cbn [lexRadixLiteral_loop].
  repeat split_step; try apply IH;
    simpl; unfold writes_post; simpl;
    eapply writes_lexeme; try reflexivity; assumption.
Qed.

Lemma lexRadixLiteral_writes fuel st alt tok :
  post (writes_post tok)
       (lexRadixLiteral caseDigit isRadixDigit literal bigIntLiteral
          type prefix fuel st alt tok).
Proof.
  unfold lexRadixLiteral.
  repeat split_step; try apply lexRadixLiteral_loop_writes.
  finish_writes.
Qed.

End RadixLiteralWrites.

Lemma lexLegacyOctalLiteral_writes opts fuel st alt tok :
  post (writes_post tok) (lexLegacyOctalLiteral opts fuel st alt tok).
Proof.
  unfold lexLegacyOctalLiteral.
  generalize (ptr st + 1)%nat (col st) (advance 2 st).
  induction fuel as [| f IH]; intros sp sc s; [exact I |].
  cbn [lexLegacyOctalLiteral_loop].
  repeat split_step; try apply IH; finish_writes.
Qed.

Lemma lexStrLiteral_loop_writes quote fuel : forall sp sc alt st tok,
  post (writes_post tok) (lexStrLiteral_loop quote fuel sp sc alt st tok).
Proof.
  induction fuel as [| f IH]; intros sp sc alt st tok; [exact I |].
  cbn [lexStrLiteral_loop].
  repeat split_step; try apply IH; finish_writes.
Qed.

(** Every returning run of the dispatcher leaves the slot in one of the
    four ways of [writes]. *)
Lemma lexToken_loop_writes opts fuel : forall st alt tok,
  post (writes_post tok) (lexToken_loop opts fuel st alt tok).
Proof.
  induction fuel as [| f IH]; intros st0 alt tok; [exact I |].
  cbn [lexToken_loop]. apply post_bind.
  destruct (skipHorizontalWhitespace f st0) as [st | |]; simpl; auto.
  unfold emit.
  repeat match goal with
  | |- context [match peek ?s ?k with _ => _ end] =>
      destruct (peek s k) eqn:?; [| exact I]
  | |- context [if Z.eqb ?a ?b then _ else _] => destruct (Z.eqb a b) eqn:?
  | |- context [if Nat.eqb ?a ?b then _ else _] =>
      destruct (Nat.eqb a b) eqn:?
  | |- context [if orb ?a ?b then _ else _] => destruct (orb a b) eqn:?
  | |- context [if andb ?a ?b then _ else _] => destruct (andb a b) eqn:?
  | |- context [if caseOctal ?a then _ else _] =>
      destruct (caseOctal a) eqn:?
  end;
  try apply IH;
  try apply lexNumericLiteral_writes;
  try apply lexFloatLiteral_writes;
  try (apply lexRadixLiteral_writes; reflexivity);
  try apply lexLegacyOctalLiteral_writes;
  try apply lexStrLiteral_loop_writes;
  try (simpl; unfold writes_post; simpl;
       first
         [ eapply writes_FileEnd;
           [reflexivity | now apply Nat.eqb_eq]
         | eapply writes_plain; [reflexivity | reflexivity | discriminate]
         | apply writes_nothing; reflexivity ]).
  - (* single-line comment *)
    apply post_bind.
    pose proof (lexSingleLineComment_loop_post f (advance 2 st) alt tok) as H.
    unfold lexSingleLineComment.
    destruct (lexSingleLineComment_loop f (advance 2 st) alt tok)
      as [[[more st1] tok1] | |]; simpl in *; auto.
    unfold comment_post in H. destruct more.
    + subst tok1. apply IH.
    + destruct H as [He (l & c & a & ->)]. simpl.
      eapply writes_FileEnd; [reflexivity | exact He].
  - (* multi-line comment *)
    apply post_bind.
    pose proof (lexMultiLineComment_loop_post f (advance 2 st) alt tok) as H.
    unfold lexMultiLineComment.
    destruct (lexMultiLineComment_loop f (advance 2 st) alt tok)
      as [[[[more st1] tok1] alt1] | |]; simpl in *; auto.
    unfold comment_post in H. destruct more.
    + subst tok1. apply IH.
    + destruct H as [He (l & c & a & ->)]. simpl.
      eapply writes_FileEnd; [reflexivity | exact He].
Qed.

(** ** The end of the buffer *)

Lemma skipHorizontalWhitespace_stop fuel st c :
  peek st 0 = Some c -> isHorizontalWhitespace c = false ->
  skipHorizontalWhitespace (S fuel) st = Ret st.
Proof. intros Hp Hw. cbn [skipHorizontalWhitespace]. now rewrite Hp, Hw. Qed.





(** ** The text field of the slot *)

(** C9.  The four-argument [Token::set] writes kind, line, column and the
    after-line-terminator flag and leaves [text] as it was; and whenever
    [lexToken] returns with the slot holding a kind that carries no lexeme
    ([FileEnd], any punctuator or operator, [ZeroLiteral] including the
    placeholder after a malformed radix prefix, [ZeroBigIntLiteral]), the
    slot's [text] is what it was before the call. *)
Theorem lexToken_without_lexeme_keeps_text :
  (forall tok k l c a,
     Token.text (Token.set tok k l c a) = Token.text tok
     /\ Token.kind (Token.set tok k l c a) = k
     /\ Token.line (Token.set tok k l c a) = l
     /\ Token.col (Token.set tok k l c a) = c
     /\ Token.afterLineTerminator (Token.set tok k l c a) = a)
  /\ (forall opts fuel st tok st' tok',
        lexToken opts fuel st tok = Ret (st', tok') ->
        hasLexeme (Token.kind tok') = false ->
        Token.text tok' = Token.text tok).
Proof.
  split; [intros; repeat split |].
  intros opts fuel st tok st' tok' Hrun Hk.
  pose proof (lexToken_loop_writes opts fuel st false tok) as W.
  unfold lexToken in Hrun. rewrite Hrun in W.
  unfold post, writes_post in W. cbn [fst snd] in W.
  destruct W as [E | l c a E He | k l c a E Hl Hne | k l c a x E Hl];
    subst tok'; try reflexivity.
  simpl in Hk. congruence.
Qed.

Lemma lexToken_without_lexeme_keeps_text_witness :
  let st := Lexer_new (bytes_of_string "0x;") "a.ts" in
  let tok := Token.mk StringLiteral 1 1 (mkStringRef 1 2) false in
  let st' := report (advance 2 st) 1 3
               (MalformedRadixInt "hexadecimal" "0x" (chr ";")) in
  let tok' := Token.set tok ZeroLiteral 1 1 false in
  lexToken (mkUserOpts true) 2 st tok = Ret (st', tok')
  /\ hasLexeme (Token.kind tok') = false
  /\ Token.text tok' = mkStringRef 1 2.
Proof.
  intros st tok st' tok'.
  split; [reflexivity |]. split; [reflexivity |].
  exact (proj2 lexToken_without_lexeme_keeps_text (mkUserOpts true) 2%nat
           st tok st' tok' eq_refl eq_refl).
Defined.

(** ** Radix prefixes without a digit *)

Lemma lexRadixLiteral_no_digit caseDigit isRadixDigit literal bigIntLiteral
    type prefix fuel st alt tok d :
  peek st 2 = Some d -> isRadixDigit d = false ->
  lexRadixLiteral caseDigit isRadixDigit literal bigIntLiteral type prefix
    fuel st alt tok =
    Ret (report (advance 2 st) (line st) (col st + 2)
           (MalformedRadixInt type prefix d),
         Token.set tok ZeroLiteral (line st) (col st) alt).
Proof.
  intros Hp Hd. unfold lexRadixLiteral, diagnoseMalformedRadixInt.
  rewrite peek_advance. cbn [Nat.add]. rewrite Hp, Hd. reflexivity.
Qed.

(** C6.  A literal that starts with [0x], [0X], [0o], [0O], [0b] or [0B]
    and whose next byte is not a digit of that radix makes [lexToken]
    report the expected-digit diagnostic (one message, the failed flag
    raised), write a [ZeroLiteral] placed at the [0], and stop two bytes
    further on: the byte after the prefix and all that follow are left for
    the next call. *)
Theorem lexToken_radix_prefix_without_digit opts fuel st alt tok p d :
  peek st 0 = Some (chr "0") ->
  peek st 1 = Some p ->
  peek st 2 = Some d ->
  ((p = chr "x" \/ p = chr "X") /\ isHexDigit d = false)
  \/ ((p = chr "o" \/ p = chr "O") /\ isOctalDigit d = false)
  \/ ((p = chr "b" \/ p = chr "B") /\ isBinaryDigit d = false) ->
  exists st' type prefix,
    lexToken_loop opts (S (S fuel)) st alt tok =
      Ret (st', Token.set tok ZeroLiteral (line st) (col st) alt)
    /\ ptr st' = (ptr st + 2)%nat
    /\ line st' = line st
    /\ col st' = col st + 2
    /\ lexerFailed st' = true
    /\ errs st' =
         errs st ++ [mkDiagnostic (filePath st) (line st) (col st + 2)
                       (MalformedRadixInt type prefix d)].
Proof.
  intros H0 H1 H2 Hcase.
  assert (Hrun : forall type prefix,
    lexToken_loop opts (S (S fuel)) st alt tok =
      Ret (report (advance 2 st) (line st) (col st + 2)
             (MalformedRadixInt type prefix d),
           Token.set tok ZeroLiteral (line st) (col st) alt) ->
    exists st' type prefix,
      lexToken_loop opts (S (S fuel)) st alt tok =
        Ret (st', Token.set tok ZeroLiteral (line st) (col st) alt)
      /\ ptr st' = (ptr st + 2)%nat
      /\ line st' = line st
      /\ col st' = col st + 2
      /\ lexerFailed st' = true
      /\ errs st' =
           errs st ++ [mkDiagnostic (filePath st) (line st) (col st + 2)
                         (MalformedRadixInt type prefix d)]).
  { intros type prefix E. exists (report (advance 2 st) (line st)
      (col st + 2) (MalformedRadixInt type prefix d)), type, prefix.
    split; [exact E |]. repeat split. }
  assert (Hgo :
    lexToken_loop opts (S (S fuel)) st alt tok =
      match peek st 1 with
      | Some c1 =>
          if c1 =? chr "." then
            lexFloatLiteral (S fuel) (ptr st) (col st) alt (advance 1 st) tok
          else if (c1 =? chr "x") || (c1 =? chr "X") then
            lexHexNumericLiteral (S fuel) st alt tok
          else if (c1 =? chr "O") || (c1 =? chr "o") then
            lexOctalNumericLiteral (S fuel) st alt tok
          else if (c1 =? chr "b") || (c1 =? chr "B") then
            lexBinaryNumericLiteral (S fuel) st alt tok
          else if c1 =? chr "n" then emit ZeroBigIntLiteral 2 st alt tok
          else if caseOctal c1 then
            lexLegacyOctalLiteral opts (S fuel) st alt tok
          else Ret (st, Token.set tok ZeroLiteral (line st) (col st) alt)
      | None => OutOfBounds st
      end).
  { cbn [lexToken_loop].
    rewrite (skipHorizontalWhitespace_stop fuel st (chr "0") H0 eq_refl).
    cbn [bind]. rewrite H0. reflexivity. }
  rewrite H1 in Hgo.
  destruct Hcase as [[[-> | ->] Hd] | [[[-> | ->] Hd] | [[-> | ->] Hd]]];
    [ apply (Hrun "hexadecimal"%string "0x"%string)
    | apply (Hrun "hexadecimal"%string "0x"%string)
    | apply (Hrun "octal"%string "0o"%string)
    | apply (Hrun "octal"%string "0o"%string)
    | apply (Hrun "binary"%string "0b"%string)
    | apply (Hrun "binary"%string "0b"%string) ];
    rewrite Hgo; now apply lexRadixLiteral_no_digit.
Qed.

Lemma lexToken_radix_prefix_without_digit_witness :
  let st := Lexer_new (bytes_of_string "0b2") "a.ts" in
  let tok := Token.mk FileEnd 0 0 (mkStringRef 0 0) false in
  peek st 0 = Some (chr "0")
  /\ peek st 1 = Some (chr "b")
  /\ peek st 2 = Some (chr "2")
  /\ isBinaryDigit (chr "2") = false
  /\ exists st' type prefix,
       lexToken_loop (mkUserOpts true) 2 st false tok =
         Ret (st', Token.set tok ZeroLiteral 1 1 false)
       /\ ptr st' = 2%nat
       /\ line st' = 1
       /\ col st' = 3
       /\ lexerFailed st' = true
       /\ errs st' =
            [mkDiagnostic "a.ts" 1 3
               (MalformedRadixInt type prefix (chr "2"))].
Proof.
  intros st tok.
  repeat (split; [reflexivity |]).
  apply (lexToken_radix_prefix_without_digit (mkUserOpts true) 0 st false
           tok (chr "b") (chr "2")); try reflexivity.
  right. right. split; [left |]; reflexivity.
Defined.

(** ** Legacy octal literals and strict mode *)

(** C7.  On the buffer [017] the scanner writes an [OctalLiteral] with the
    lexeme [17]; with strict mode on it also reports exactly one diagnostic
    and raises the failed flag, with strict mode off it reports nothing.
    The token is the same in both runs, and so are pointer, line and
    column. *)
Theorem lexToken_legacy_octal_017 fuel tok :
  let st := Lexer_new (bytes_of_string "017") "a.ts" in
  let tok' := Token.setText tok OctalLiteral 1 1 false (mkStringRef 1 2) in
  lexToken (mkUserOpts true) (S (S (S fuel))) st tok =
    Ret (report (advance 3 st) 1 1 LegacyOctalInStrictMode, tok')
  /\ lexToken (mkUserOpts false) (S (S (S fuel))) st tok =
       Ret (advance 3 st, tok')
  /\ List.length (errs (report (advance 3 st) 1 1 LegacyOctalInStrictMode))
       = 1%nat
  /\ lexerFailed (report (advance 3 st) 1 1 LegacyOctalInStrictMode) = true
  /\ errs (advance 3 st) = []
  /\ lexerFailed (advance 3 st) = false.
Proof.
  intros st tok'. repeat split.
Qed.

(** ** Float literals whose exponent has no digits *)

Lemma lexFloatLiteral_fraction_digits n : forall fuel st c,
  (forall i, (i < n)%nat ->
     exists d, peek st (S i) = Some d /\ isDigit d = true) ->
  peek st (S n) = Some c -> isDigit c = false ->
  lexFloatLiteral_fraction (S n + fuel) st = Ret (advance (S n) st).
Proof.
  induction n as [| n IH]; intros fuel st c Hdig Hc Hnd.
  - cbn [Nat.add lexFloatLiteral_fraction].
    rewrite peek_advance. cbn [Nat.add]. now rewrite Hc, Hnd.
  - change (S (S n) + fuel)%nat with (S (S n + fuel)).
    cbn [lexFloatLiteral_fraction].
    rewrite peek_advance. change (1 + 0)%nat with 1%nat.
    destruct (Hdig 0%nat) as (d & Hd & Hdd); [lia |].
    rewrite Hd, Hdd.
    rewrite (IH fuel (advance 1 st) c).
    + now rewrite advance_advance.
    + intros i Hi. rewrite peek_advance. cbn [Nat.add].
      apply (Hdig (S i)). lia.
    + rewrite peek_advance. exact Hc.
    + exact Hnd.
Qed.

(** C10, as the code has it.  Let [lexFloatLiteral] start at the point, with
    [n] digits after it, then [e] or [E], then an optional sign, and then a
    byte [c] that is neither a digit nor the separator [_].  The scanner
    reports nothing, consumes the exponent prefix and the sign, and writes a
    [FloatLiteral] whose lexeme runs from [startPtr] up to and including
    them. *)
Theorem lexFloatLiteral_exponent_without_digits
    fuel startPtr startCol alt st tok n e s c :
  (forall i, (i < n)%nat ->
     exists d, peek st (S i) = Some d /\ isDigit d = true) ->
  peek st (S n) = Some e ->
  e = chr "e" \/ e = chr "E" ->
  peek st (S (S n)) = Some s ->
  let k := if (s =? chr "+") || (s =? chr "-") then 2%nat else 1%nat in
  peek st (S n + k) = Some c ->
  caseDecimal c = false ->
  c <> chr "_" ->
  lexFloatLiteral (S n + fuel) startPtr startCol alt st tok =
    Ret (advance (S n + k) st,
         Token.setText tok FloatLiteral (line st) startCol alt
           (mkStringRef startPtr (ptr st + (S n + k) - startPtr)))
  /\ errs (advance (S n + k) st) = errs st
  /\ lexerFailed (advance (S n + k) st) = lexerFailed st.
Proof.
  intros Hdig He Hee Hs k Hc Hcd Hcu.
  split; [| split; reflexivity].
  assert (Hnd : isDigit e = false) by (destruct Hee; subst e; reflexivity).
  unfold lexFloatLiteral.
  rewrite (lexFloatLiteral_fraction_digits n fuel st e Hdig He Hnd).
  cbn [bind]. rewrite !peek_advance.
  replace (S n + 0)%nat with (S n) by lia.
  replace (S n + 1)%nat with (S (S n)) by lia.
  rewrite He, Hs.
  assert (Hexp : negb (e =? chr "e") && negb (e =? chr "E") = false)
    by (destruct Hee; subst e; reflexivity).
  rewrite Hexp. fold k.
  assert (Hadv : (if (s =? chr "+") || (s =? chr "-")
                  then advance 2 (advance (S n) st)
                  else advance 1 (advance (S n) st))
                 = advance (S n + k) st).
  { unfold k. destruct ((s =? chr "+") || (s =? chr "-"));
      now rewrite advance_advance. }
  rewrite Hadv. cbn [Nat.add lexFloatLiteral_exponent].
  rewrite peek_advance. replace (S (n + k) + 0)%nat with (S n + k)%nat by lia.
  rewrite Hc, Hcd.
  assert (Hu : (c =? chr "_") = false) by now apply Z.eqb_neq.
  rewrite Hu. reflexivity.
Qed.

Lemma lexFloatLiteral_exponent_without_digits_witness :
  let st := advance 1 (Lexer_new (bytes_of_string "1.5e+;") "a.ts") in
  let tok := Token.mk FileEnd 0 0 (mkStringRef 0 0) false in
  peek st 1 = Some (chr "5")
  /\ isDigit (chr "5") = true
  /\ peek st 2 = Some (chr "e")
  /\ peek st 3 = Some (chr "+")
  /\ peek st 4 = Some (chr ";")
  /\ caseDecimal (chr ";") = false
  /\ lexFloatLiteral 2 0 1 false st tok =
       Ret (advance 4 st,
            Token.setText tok FloatLiteral 1 1 false (mkStringRef 0 5))
  /\ errs (advance 4 st) = [].
Proof.
  intros st tok.
  do 6 (split; [reflexivity |]).
  assert (Hdig : forall i, (i < 1)%nat ->
            exists d, peek st (S i) = Some d /\ isDigit d = true).
  { intros i Hi. assert (i = 0)%nat as -> by lia.
    exists (chr "5"). split; reflexivity. }
  assert (Hne : chr ";" <> chr "_") by discriminate.
  destruct (lexFloatLiteral_exponent_without_digits 0 0 1 false st tok 1
              (chr "e") (chr "+") (chr ";") Hdig eq_refl
              (or_introl eq_refl) eq_refl eq_refl eq_refl Hne)
    as (Hrun & Herr & _).
  split; [exact Hrun | exact Herr].
Defined.

(** C10, as it is stated, fails when the byte after the exponent prefix and
    sign is the separator [_] not followed by a digit: on [1.5e+_] the
    prefix and the sign are not followed by any digit, and yet the scanner
    reports the separator diagnostic.  The [FloatLiteral] still has the
    lexeme [1.5e+]. *)
Lemma lexFloatLiteral_exponent_separator_diagnosed :
  let st := Lexer_new (bytes_of_string "1.5e+_") "a.ts" in
  let tok := Token.mk FileEnd 0 0 (mkStringRef 0 0) false in
  peek st 3 = Some (chr "e")
  /\ peek st 4 = Some (chr "+")
  /\ peek st 5 = Some (chr "_")
  /\ isDigit (chr "_") = false
  /\ peek st 6 = Some 0
  /\ isDigit 0 = false
  /\ exists st',
       lexToken (mkUserOpts true) 4 st tok =
         Ret (st', Token.setText tok FloatLiteral 1 1 false
                     (mkStringRef 0 5))
       /\ errs st' =
            [mkDiagnostic "a.ts" 1 7 (InvalidNumericSeparator (chr "_"))]
       /\ errs st' <> errs st.
Proof.
  intros st tok. repeat (split; [reflexivity |]).
  eexists. split; [reflexivity |]. split; [reflexivity | discriminate].
Qed.

(** ** Embedded NUL bytes *)

Lemma diagnoseUnexpectedNull_effect st :
  ptr (diagnoseUnexpectedNull st) = ptr st
  /\ buf (diagnoseUnexpectedNull st) = buf st
  /\ line (diagnoseUnexpectedNull st) = line st + 1
  /\ col (diagnoseUnexpectedNull st) = col st + 1
  /\ lexerFailed (diagnoseUnexpectedNull st) = true
  /\ errs (diagnoseUnexpectedNull st) =
       errs st ++ [mkDiagnostic (filePath st) (line st) (col st)
                     UnexpectedNull].
Proof. repeat split. Qed.

Lemma peek_diagnoseUnexpectedNull st k :
  peek (diagnoseUnexpectedNull st) k = peek st k.
Proof. reflexivity. Qed.

(** From a NUL that is not at [endPtr] the dispatcher never returns: each
    round reports, bumps [line] and [col], and finds the same byte again. *)
Lemma lexToken_loop_embedded_null opts fuel : forall st alt tok,
  peek st 0 = Some 0 -> ptr st <> endPtr st ->
  lexToken_loop opts fuel st alt tok = OutOfFuel.
Proof.
  induction fuel as [| f IH]; intros st alt tok Hp Hne; [reflexivity |].
  cbn [lexToken_loop]. destruct f as [| f'].
  - reflexivity.
  - rewrite (skipHorizontalWhitespace_stop f' st 0 Hp eq_refl).
    cbn [bind]. rewrite Hp. cbn [Z.eqb].
    destruct (Nat.eqb_spec (ptr st) (endPtr st)) as [E | _];
      [contradiction |].
    apply IH; [now rewrite peek_diagnoseUnexpectedNull | exact Hne].
Qed.

(** C5 at the buffer [NUL ;].  The helper that is to skip the NUL adds one
    to [line] and to [col] and leaves the pointer where it is, so the
    dispatcher meets the same NUL again: no amount of fuel lets the call
    return, and the [;] behind the NUL is never reached. *)
Theorem lexToken_embedded_null_never_returns opts path tok :
  let st := Lexer_new [0; chr ";"] path in
  ptr (diagnoseUnexpectedNull st) = ptr st
  /\ line (diagnoseUnexpectedNull st) = line st + 1
  /\ col (diagnoseUnexpectedNull st) = col st + 1
  /\ forall fuel, lexToken opts fuel st tok = OutOfFuel.
Proof.
  intros st. do 3 (split; [reflexivity |]).
  intros fuel. apply lexToken_loop_embedded_null.
  - reflexivity.
  - discriminate.
Qed.

(** ** Bytes without a case *)

(** A byte that is neither horizontal whitespace nor one of the case
    labels falls through the [switch]: nothing is written, nothing moves. *)
Lemma lexToken_loop_no_case opts fuel st alt tok c :
  peek st 0 = Some c ->
  isHorizontalWhitespace c = false ->
  ~ In c caseLabels ->
  (chr "1" <=? c) && (c <=? chr "9") = false ->
  lexToken_loop opts (S (S fuel)) st alt tok = Ret (st, tok).
Proof.
  intros Hp Hw Hnin Hdig. cbn [lexToken_loop].
  rewrite (skipHorizontalWhitespace_stop fuel st c Hp Hw).
  cbn [bind]. rewrite Hp, Hdig.
  repeat match goal with
  | |- context [c =? ?v] =>
      replace (c =? v) with false
        by (symmetry; apply Z.eqb_neq; intros ->; apply Hnin;
            unfold caseLabels;
            repeat first [left; reflexivity | right])
  end.
  reflexivity.
Qed.

(** C1 at the buffers that start with [@], [#], a backtick, the letter [a]
    or the non-ASCII byte 0xC3.  No case of the [switch] matches and there
    is no [default]: the call returns with the slot and the scanner state
    untouched, whatever the slot held. *)
Theorem lexToken_byte_without_case opts fuel path tok rest :
  Forall
    (fun c =>
       lexToken opts (S (S fuel)) (Lexer_new (c :: rest) path) tok =
         Ret (Lexer_new (c :: rest) path, tok))
    [chr "@"; chr "#"; chr "`"; chr "a"; 0xC3].
Proof. repeat constructor. Qed.

(** ** Forward progress *)

(** A [0] that starts none of the longer literal forms: the token is
    written, pointer and column stay. *)
Lemma lexToken_loop_zero_literal opts fuel st alt tok c1 :
  peek st 0 = Some (chr "0") -> peek st 1 = Some c1 ->
  Forall (fun x => c1 <> x)
    [chr "."; chr "x"; chr "X"; chr "O"; chr "o"; chr "b"; chr "B";
     chr "n"] ->
  caseOctal c1 = false ->
  lexToken_loop opts (S (S fuel)) st alt tok =
    Ret (st, Token.set tok ZeroLiteral (line st) (col st) alt).
Proof.
  intros H0 H1 Hne Hoct. cbn [lexToken_loop].
  rewrite (skipHorizontalWhitespace_stop fuel st (chr "0") H0 eq_refl).
  cbn [bind]. rewrite H0, H1.
  repeat match goal with
         | H : Forall _ (_ :: _) |- _ => inversion_clear H
         end.
  repeat match goal with
         | H : c1 <> _ |- _ => apply Z.eqb_neq in H; rewrite H; clear H
         end.
  rewrite Hoct. reflexivity.
Qed.

(** A [?] that starts neither [??] nor [?.]: the token is written, the
    column moves by two, the pointer stays. *)
Lemma lexToken_loop_question opts fuel st alt tok c1 :
  peek st 0 = Some (chr "?") -> peek st 1 = Some c1 ->
  c1 <> chr "?" -> c1 <> chr "." ->
  lexToken_loop opts (S (S fuel)) st alt tok =
    Ret (with_col st (col st + 1 + 1),
         Token.set tok Question (line st) (col st) alt).
Proof.
  intros H0 H1 Hq Hd. cbn [lexToken_loop].
  rewrite (skipHorizontalWhitespace_stop fuel st (chr "?") H0 eq_refl).
  cbn [bind]. rewrite H0, H1.
  apply Z.eqb_neq in Hq. apply Z.eqb_neq in Hd. rewrite Hq, Hd.
  reflexivity.
Qed.

(** C2 at the buffers [0;], [?;] and [NUL ;].  The plain zero literal is
    written without moving pointer or column; the single [?] moves the
    column twice and the pointer not at all.  In both cases the pointer
    after the call is where it was before, short of the end of the buffer,
    the token is not [FileEnd], and for the zero literal every further call
    does the same again.  On the embedded NUL the call does not return at
    all, since the diagnostic helper leaves the pointer in place. *)
Theorem lexToken_without_progress opts fuel path tok :
  let zero := Lexer_new (bytes_of_string "0;") path in
  let question := Lexer_new (bytes_of_string "?;") path in
  let null := Lexer_new [0; chr ";"] path in
  lexToken opts (S (S fuel)) zero tok =
    Ret (zero, Token.set tok ZeroLiteral 1 1 false)
  /\ (forall n,
        lexToken_repeat opts (S (S fuel)) (S n) zero tok =
          Ret (zero, Token.set tok ZeroLiteral 1 1 false))
  /\ lexToken opts (S (S fuel)) question tok =
       Ret (with_col question 3, Token.set tok Question 1 1 false)
  /\ ptr (with_col question 3) = ptr question
  /\ (ptr question < endPtr question)%nat
  /\ ptr (diagnoseUnexpectedNull null) = ptr null
  /\ (forall fuel', lexToken opts fuel' null tok = OutOfFuel).
Proof.
  intros zero question null.
  split; [reflexivity |].
  split.
  - intros n. revert tok. induction n as [| n IH]; intros tok.
    + reflexivity.
    + change (lexToken_repeat opts (S (S fuel)) (S (S n)) zero tok)
        with (lexToken_repeat opts (S (S fuel)) (S n) zero
                (Token.set tok ZeroLiteral 1 1 false)).
      now rewrite IH.
  - split; [reflexivity |]. split; [reflexivity |].
    split; [apply Nat.ltb_lt; reflexivity |].
    split; [reflexivity |].
    intros fuel'. apply lexToken_loop_embedded_null;
      [reflexivity | discriminate].
Qed.

(** ** Unterminated string literals *)

Lemma peek_skipn_cons st c rest :
  skipn (ptr st) (buf st) = c :: rest ->
  peek st 0 = Some c
  /\ skipn (ptr (advance 1 st)) (buf (advance 1 st)) = rest.
Proof.
  intros H. split.
  - unfold peek. rewrite <- nth_error_skipn, H. reflexivity.
  - simpl. rewrite Nat.add_comm. rewrite <- skipn_skipn, H. reflexivity.
Qed.

(** A string body of ASCII bytes without the closing quote, running up to
    the end of the buffer: the loop passes [endPtr] and faults with the
    pointer one past it. *)
Lemma lexStrLiteral_loop_unterminated quote sp sc alt tok :
  quote <> 0 ->
  forall rest fuel st,
    (ptr st <= endPtr st)%nat ->
    skipn (ptr st) (buf st) = rest ->
    Forall (fun c => isAscii c = true /\ c <> quote) rest ->
    lexStrLiteral_loop quote (List.length rest + 2 + fuel) sp sc alt st tok
      = OutOfBounds (advance (List.length rest + 1) st).
Proof.
  intros Hq rest. induction rest as [| c rest IH]; intros fuel st Hle Hs Hall.
  - assert (He : ptr st = endPtr st).
    { apply (f_equal (@List.length _)) in Hs. rewrite length_skipn in Hs.
      unfold endPtr in *. simpl in Hs. lia. }
    cbn [List.length Nat.add lexStrLiteral_loop].
    rewrite (peek_at_end st He).
    assert (Hz : (0 =? quote) = false) by (apply Z.eqb_neq; congruence).
    rewrite Hz. cbn [isAscii]. change (isAscii 0) with true. cbv iota.
    unfold peek. simpl. rewrite Nat.add_0_r.
    assert (Hn : nth_error (buf st) (ptr st + 1) = None).
    { apply nth_error_None. unfold endPtr in He. lia. }
    rewrite Hn.
    assert (Hb : (ptr st + 1 =? endPtr (advance 1 st))%nat = false).
    { apply Nat.eqb_neq. unfold endPtr in *. simpl. lia. }
    rewrite Hb. reflexivity.
  - destruct (peek_skipn_cons st c rest Hs) as [Hp Hs'].
    inversion_clear Hall as [| ? ? [Ha Hc] Hall'].
    cbn [List.length Nat.add lexStrLiteral_loop].
    rewrite Hp. apply Z.eqb_neq in Hc. rewrite Hc, Ha.
    rewrite (IH fuel (advance 1 st)); [| | exact Hs' | exact Hall'].
    + rewrite advance_advance. reflexivity.
    + assert (ptr st < endPtr st)%nat.
      { apply (f_equal (@List.length _)) in Hs. rewrite length_skipn in Hs.
        unfold endPtr. simpl in Hs. lia. }
      unfold endPtr in *. simpl. lia.
Qed.


(** Any double-quoted literal whose ASCII body runs to the end of the buffer
    without a closing quote drives the pointer to [endPtr + 1]. *)
Lemma lexToken_unterminated_double_quote opts fuel path tok body :
  Forall (fun c => isAscii c = true /\ c <> 34) body ->
  let st := Lexer_new (34 :: body) path in
  lexToken opts (S (List.length body + 2 + fuel)) st tok =
    OutOfBounds (advance (List.length body + 2) st)
  /\ ptr (advance (List.length body + 2) st) = S (endPtr st).
Proof.
  intros Hall st. split.
  - unfold lexToken. cbn [lexToken_loop].
    assert (Hp : peek st 0 = Some 34) by reflexivity.
    assert (Hw : skipHorizontalWhitespace (List.length body + 2 + fuel) st
                 = Ret st).
    { replace (List.length body + 2 + fuel)%nat
        with (S (List.length body + 1 + fuel)) by lia.
      now apply (skipHorizontalWhitespace_stop _ st 34). }
    rewrite Hw. cbn [bind]. rewrite Hp.
    change (lexDoubleQuoteStrLiteral (List.length body + 2 + fuel) st false
              tok = OutOfBounds (advance (List.length body + 2) st)).
    unfold lexDoubleQuoteStrLiteral.
    rewrite (lexStrLiteral_loop_unterminated 34 (ptr st + 1) (col st) false
               tok ltac:(discriminate) body fuel (advance 1 st)).
    + rewrite advance_advance. f_equal. f_equal. lia.
    + unfold endPtr. simpl. lia.
    + reflexivity.
    + exact Hall.
  - unfold endPtr. simpl. lia.
Qed.

(** C3 at the buffers that hold an opening quote and the letter [a].  The
    string scanner takes the NUL at [endPtr] for an ordinary ASCII byte and
    steps over it: the pointer reaches [endPtr + 1], outside the buffer,
    and the next read is out of bounds. *)
Theorem lexToken_unterminated_string_overruns opts fuel path tok :
  let dq := Lexer_new [34; chr "a"] path in
  let sq := Lexer_new [chr "'"; chr "a"] path in
  lexToken opts (S (S (S (S fuel)))) dq tok = OutOfBounds (advance 3 dq)
  /\ lexToken opts (S (S (S (S fuel)))) sq tok = OutOfBounds (advance 3 sq)
  /\ ptr (advance 3 dq) = S (endPtr (advance 3 dq))
  /\ ptr (advance 3 sq) = S (endPtr (advance 3 sq)).
Proof. repeat split. Qed.

(** ** Line terminators between tokens *)

Lemma lexToken_loop_line_feed opts fuel st alt tok :
  peek st 0 = Some 10 ->
  lexToken_loop opts (S (S fuel)) st alt tok =
    lexToken_loop opts (S fuel) (newline 1 st) true tok.
Proof.
  intros Hp. cbn [lexToken_loop].
  rewrite (skipHorizontalWhitespace_stop fuel st 10 Hp eq_refl).
  cbn [bind]. rewrite Hp. reflexivity.
Qed.

Lemma lexToken_loop_carriage_return opts fuel st alt tok c1 :
  peek st 0 = Some 13 -> peek st 1 = Some c1 ->
  lexToken_loop opts (S (S fuel)) st alt tok =
    lexToken_loop opts (S fuel)
      (newline (if c1 =? 10 then 2 else 1) st) true tok.
Proof.
  intros Hp H1. cbn [lexToken_loop].
  rewrite (skipHorizontalWhitespace_stop fuel st 13 Hp eq_refl).
  cbn [bind]. rewrite Hp, H1. reflexivity.
Qed.

Lemma newline_effect n st :
  line (newline n st) = line st + 1
  /\ col (newline n st) = 1
  /\ ptr (newline n st) = (ptr st + n)%nat.
Proof. repeat split. Qed.

(** C4 at the buffers that hold U+2028 or U+2029 (E2 80 A8, E2 80 A9) in
    front of a [;].  The bytes do decode to the two separators, but the
    dispatcher has no case for the lead byte 0xE2 and never calls the
    decoder: the call returns with line, column, pointer and slot as they
    were.  Inside a comment the same bytes are taken as a line terminator,
    and in front of the [;] each of LF, CR and CR LF is: the [;] is then
    found on line 2, column 1, after a line terminator. *)
Theorem lexToken_unicode_line_terminator_unhandled opts fuel path tok :
  let ls := Lexer_new [0xE2; 0x80; 0xA8; chr ";"] path in
  let ps := Lexer_new [0xE2; 0x80; 0xA9; chr ";"] path in
  let commented :=
    Lexer_new [chr "/"; chr "/"; 0xE2; 0x80; 0xA8; chr ";"] path in
  let lf := Lexer_new [10; chr ";"] path in
  let cr := Lexer_new [13; chr ";"] path in
  let crlf := Lexer_new [13; 10; chr ";"] path in
  decodeUTF8 ls = (conversionOK, with_ptr ls 3, 0x2028)
  /\ decodeUTF8 ps = (conversionOK, with_ptr ps 3, 0x2029)
  /\ lexToken opts (S (S fuel)) ls tok = Ret (ls, tok)
  /\ lexToken opts (S (S fuel)) ps tok = Ret (ps, tok)
  /\ lexToken opts (S (S (S (S fuel)))) commented tok =
       Ret (advance 1 (with_ptr (newline 0 commented) 5),
            Token.set tok Semicolon 2 1 true)
  /\ lexToken opts (S (S (S fuel))) lf tok =
       Ret (advance 1 (newline 1 lf), Token.set tok Semicolon 2 1 true)
  /\ lexToken opts (S (S (S fuel))) cr tok =
       Ret (advance 1 (newline 1 cr), Token.set tok Semicolon 2 1 true)
  /\ lexToken opts (S (S (S fuel))) crlf tok =
       Ret (advance 1 (newline 2 crlf), Token.set tok Semicolon 2 1 true).
Proof. repeat split. Qed.

(** ** Where a returning call leaves the pointer *)

Lemma convertUTF8Sequence_bound src r n cp :
  convertUTF8Sequence src = (r, n, cp) -> isOK r = true ->
  (0 < n <= List.length src)%nat.
Proof.
  unfold convertUTF8Sequence. destruct src as [| b0 rest].
  - intros [= <- <- <-]. discriminate.
  - destruct (Nat.ltb_spec (List.length (b0 :: rest))
                (S (trailingBytesForUTF8 b0))) as [Hlt | Hge].
    + intros [= <- <- <-]. discriminate.
    + repeat match goal with
             | |- context [if ?c then _ else _] => destruct c
             end;
        intros [= <- <- <-]; try discriminate.
      intros _. lia.
Qed.

Lemma decodeUTF8_bound st r st1 cp :
  decodeUTF8 st = (r, st1, cp) -> isOK r = true ->
  (ptr st1 <= endPtr st1)%nat.
Proof.
  unfold decodeUTF8.
  destruct (convertUTF8Sequence (skipn (ptr st) (buf st)))
    as [[r0 n] cp0] eqn:E.
  intros [= <- <- <-] Hok.
  pose proof (convertUTF8Sequence_bound _ _ _ _ E Hok) as Hn.
  rewrite length_skipn in Hn. unfold endPtr. simpl. lia.
Qed.

(** A test on a known byte that came out the other way. *)
Ltac refute_test :=
  match goal with
  | E : ?l = ?b |- _ =>
      tryif (match l with context [?v] => is_var v end) then fail
      else (vm_compute in E; discriminate E)
  end.

(** Every successful read bounds the pointer, and a read of a byte other
    than NUL bounds it strictly. *)
Ltac read_bounds :=
  repeat match goal with
  | H : peek ?s ?k = Some ?c |- _ =>
      lazymatch goal with
      | _ : (ptr s + k <= endPtr s)%nat |- _ => fail
      | _ => pose proof (peek_some_le _ _ _ H)
      end
  end;
  repeat match goal with
  | H : peek ?s ?k = Some ?c |- _ =>
      lazymatch goal with
      | _ : (ptr s + k < endPtr s)%nat |- _ => fail
      | _ =>
          assert (ptr s + k < endPtr s)%nat
            by (apply (peek_nonzero_lt _ _ _ H); intros ->; refute_test)
      end
  end.

Ltac solve_bounds :=
  read_bounds; unfold in_bounds, bufPtr, endPtr in *; simpl in *; lia.

Ltac decode_bounds :=
  match goal with
  | H : decodeUTF8 _ = _, N : negb (isOK _) = false |- _ =>
      apply negb_false_iff in N;
      apply (decodeUTF8_bound _ _ _ _ H) in N;
      split; [apply Nat.le_0_l | exact N]
  end.

Lemma lexSingleLineComment_loop_bounds fuel : forall st alt tok,
  post (fun r => in_bounds (snd (fst r)))
       (lexSingleLineComment_loop fuel st alt tok).
Proof.
  induction fuel as [| f IH]; intros st alt tok; [exact I |].
  cbn [lexSingleLineComment_loop].
  repeat split_step; try apply IH; simpl;
    first [decode_bounds | solve_bounds].
Qed.

Lemma lexMultiLineComment_loop_bounds fuel : forall st alt tok,
  post (fun r => in_bounds (snd (fst (fst r))))
       (lexMultiLineComment_loop fuel st alt tok).
Proof.
  induction fuel as [| f IH]; intros st alt tok; [exact I |].
  cbn [lexMultiLineComment_loop].
  repeat split_step; try apply IH; simpl; solve_bounds.
Qed.

Lemma lexFloatLiteral_exponent_bounds fuel : forall sp sc alt st tok,
  post (fun r => in_bounds (fst r))
       (lexFloatLiteral_exponent fuel sp sc alt st tok).
Proof.
  induction fuel as [| f IH]; intros sp sc alt st tok; [exact I |].
  cbn [lexFloatLiteral_exponent].
  repeat split_step; try apply IH; simpl; solve_bounds.
Qed.

Lemma lexFloatLiteral_bounds fuel sp sc alt st tok :
  post (fun r => in_bounds (fst r))
       (lexFloatLiteral fuel sp sc alt st tok).
Proof.
  unfold lexFloatLiteral. apply post_bind.
  destruct (lexFloatLiteral_fraction fuel st) as [st1 | |]; simpl; auto.
  repeat split_step;
    try apply lexFloatLiteral_exponent_bounds; simpl; solve_bounds.
Qed.

Lemma lexNumericLiteral_loop_bounds fuel : forall sp sc alt st tok,
  post (fun r => in_bounds (fst r))
       (lexNumericLiteral_loop fuel sp sc alt st tok).
Proof.
  induction fuel as [| f IH]; intros sp sc alt st tok; [exact I |].
  cbn [lexNumericLiteral_loop].
  repeat split_step; try apply IH; try apply lexFloatLiteral_bounds;
    simpl; solve_bounds.
Qed.

Lemma lexRadixLiteral_loop_bounds caseDigit isRadixDigit literal
    bigIntLiteral fuel : forall sp sc alt st tok,
  post (fun r => in_bounds (fst r))
       (lexRadixLiteral_loop caseDigit isRadixDigit literal bigIntLiteral
          fuel sp sc alt st tok).
Proof.
  induction fuel as [| f IH]; intros sp sc alt st tok; [exact I |].
  cbn [lexRadixLiteral_loop].
  repeat split_step; try apply IH; simpl; solve_bounds.
Qed.

Lemma lexRadixLiteral_bounds caseDigit isRadixDigit literal bigIntLiteral
    type prefix fuel st alt tok :
  post (fun r => in_bounds (fst r))
       (lexRadixLiteral caseDigit isRadixDigit literal bigIntLiteral
          type prefix fuel st alt tok).
Proof.
  unfold lexRadixLiteral.
  repeat split_step; try apply lexRadixLiteral_loop_bounds;
    simpl; solve_bounds.
Qed.

Lemma lexLegacyOctalLiteral_bounds opts fuel st alt tok :
  post (fun r => in_bounds (fst r))
       (lexLegacyOctalLiteral opts fuel st alt tok).
Proof.
  unfold lexLegacyOctalLiteral.
  generalize (ptr st + 1)%nat (col st) (advance 2 st).
  induction fuel as [| f IH]; intros sp sc s; [exact I |].
  cbn [lexLegacyOctalLiteral_loop].
  repeat split_step; try apply IH; simpl; solve_bounds.
Qed.

Lemma lexStrLiteral_loop_bounds quote fuel : quote <> 0 ->
  forall sp sc alt st tok,
    post (fun r => in_bounds (fst r))
         (lexStrLiteral_loop quote fuel sp sc alt st tok).
Proof.
  intros Hq.
  induction fuel as [| f IH]; intros sp sc alt st tok; [exact I |].
  cbn [lexStrLiteral_loop].
  repeat split_step; try apply IH; simpl.
  match goal with
  | H : peek _ _ = Some ?c, E : (?c =? quote) = true |- _ =>
      apply Z.eqb_eq in E; subst c;
      pose proof (peek_nonzero_lt _ _ _ H Hq)
  end.
  unfold in_bounds, bufPtr, endPtr in *; simpl in *; lia.
Qed.

(** The same for the dispatcher, where every test is a comparison of a
    byte with a constant. *)
Ltac dispatch_bounds :=
  repeat match goal with
  | H : peek ?s ?k = Some ?c, E : (?c =? 0) = false |- _ =>
      apply Z.eqb_neq in E;
      pose proof (peek_nonzero_lt _ _ _ H E); clear H E
  | H : peek ?s ?k = Some ?c, E : (?c =? ?v) = true |- _ =>
      apply Z.eqb_eq in E;
      pose proof (peek_nonzero_lt s k c H
                    ltac:(rewrite E; let X := fresh in
                          intro X; vm_compute in X; discriminate X));
      clear H E
  | H : peek ?s ?k = Some ?c |- _ =>
      pose proof (peek_some_le _ _ _ H); clear H
  end;
  repeat match goal with
  | E : _ = true |- _ => clear E
  | E : _ = false |- _ => clear E
  end;
  unfold in_bounds, bufPtr, endPtr in *; simpl; lia.

(** In this model every call of the dispatcher that returns leaves the
    pointer within [[bufPtr, endPtr]]: each returning path ends with a
    successful read at or behind the final pointer.  The pointer leaves the
    buffer only on the runs of the string scanners that end out of bounds
    (see [lexStrLiteral_loop_unterminated]). *)
Lemma lexToken_loop_bounds opts fuel : forall st alt tok,
  post (fun r => in_bounds (fst r)) (lexToken_loop opts fuel st alt tok).
Proof.
  induction fuel as [| f IH]; intros st0 alt tok; [exact I |].
  cbn [lexToken_loop]. apply post_bind.
  destruct (skipHorizontalWhitespace f st0) as [st | |]; simpl; auto.
  unfold emit.
  repeat match goal with
  | |- context [match peek ?s ?k with _ => _ end] =>
      destruct (peek s k) eqn:?; [| exact I]
  | |- context [if Z.eqb ?a ?b then _ else _] => destruct (Z.eqb a b) eqn:?
  | |- context [if Nat.eqb ?a ?b then _ else _] =>
      destruct (Nat.eqb a b) eqn:?
  | |- context [if orb ?a ?b then _ else _] => destruct (orb a b) eqn:?
  | |- context [if andb ?a ?b then _ else _] => destruct (andb a b) eqn:?
  | |- context [if caseOctal ?a then _ else _] =>
      destruct (caseOctal a) eqn:?
  end;
  try apply IH;
  try apply lexNumericLiteral_loop_bounds;
  try apply lexFloatLiteral_bounds;
  try apply lexRadixLiteral_bounds;
  try apply lexLegacyOctalLiteral_bounds;
  try (apply lexStrLiteral_loop_bounds; discriminate);
  try dispatch_bounds.
  - apply post_bind.
    pose proof (lexSingleLineComment_loop_bounds f (advance 2 st) alt tok)
      as H.
    unfold lexSingleLineComment.
    destruct (lexSingleLineComment_loop f (advance 2 st) alt tok)
      as [[[more st1] tok1] | |]; simpl in *; auto.
    destruct more; [apply IH | exact H].
  - apply post_bind.
    pose proof (lexMultiLineComment_loop_bounds f (advance 2 st) alt tok)
      as H.
    unfold lexMultiLineComment.
    destruct (lexMultiLineComment_loop f (advance 2 st) alt tok)
      as [[[[more st1] tok1] alt1] | |]; simpl in *; auto.
    destruct more; [apply IH | exact H].
Qed.

Lemma lexToken_in_bounds opts fuel st tok st' tok' :
  lexToken opts fuel st tok = Ret (st', tok') -> in_bounds st'.
Proof.
  intros Hrun.
  pose proof (lexToken_loop_bounds opts fuel st false tok) as H.
  unfold lexToken in Hrun. rewrite Hrun in H. exact H.
Qed.

(** * Further properties of the scanner *)

(** ** A scan only moves forward *)

Lemma extends_refl st : extends st st.
Proof.
  split; try reflexivity; try lia.
  exists []. rewrite app_nil_r, orb_false_r. split; reflexivity.
Qed.

Lemma extends_trans a b c : extends a b -> extends b c -> extends a c.
Proof.
  intros [B1 P1 Q1 L1 (d1 & E1 & F1)] [B2 P2 Q2 L2 (d2 & E2 & F2)].
  split; try congruence; try lia.
  exists (d1 ++ d2). split.
  - now rewrite E2, E1, app_assoc.
  - unfold flagged in *. now rewrite existsb_app, orb_assoc, <- F1.
Qed.

Lemma extends_quiet st st' :
  buf st' = buf st -> filePath st' = filePath st ->
  (ptr st <= ptr st')%nat -> line st <= line st' ->
  errs st' = errs st -> lexerFailed st' = lexerFailed st ->
  extends st st'.
Proof.
  intros B P Q L E F. split; auto.
  exists []. now rewrite app_nil_r, orb_false_r.
Qed.

Lemma extends_advance n st : extends st (advance n st).
Proof. apply extends_quiet; simpl; try reflexivity; lia. Qed.

Lemma extends_newline n st : extends st (newline n st).
Proof. apply extends_quiet; simpl; try reflexivity; lia. Qed.

Lemma extends_with_col st c : extends st (with_col st c).
Proof. apply extends_quiet; simpl; try reflexivity; lia. Qed.

Lemma extends_with_line st : extends st (with_line st (line st + 1)).
Proof. apply extends_quiet; simpl; try reflexivity; lia. Qed.

Lemma extends_with_ptr st n : extends st (with_ptr st (ptr st + n)).
Proof. apply extends_quiet; simpl; try reflexivity; lia. Qed.

Lemma extends_report st l c m :
  isEndOfFileInComment m = false -> extends st (report st l c m).
Proof.
  intros Hm. split; simpl; try reflexivity; try lia.
  eexists. split; [reflexivity |].
  simpl. rewrite Hm. simpl. now rewrite orb_true_r.
Qed.

Lemma extends_print_end_of_file st l c :
  extends st (print st l c UnexpectedEndOfFileInComment).
Proof.
  split; simpl; try reflexivity; try lia.
  eexists. split; [reflexivity |]. simpl. now rewrite orb_false_r.
Qed.

Lemma extends_diagnoseUnexpectedNull st :
  extends st (diagnoseUnexpectedNull st).
Proof.
  split; simpl; try reflexivity; try lia.
  eexists. split; [reflexivity |]. simpl. now rewrite orb_true_r.
Qed.

Lemma extends_diagnoseInvalidUTF8 st : extends st (diagnoseInvalidUTF8 st).
Proof.
  split; simpl; try reflexivity; try lia.
  eexists. split; [reflexivity |]. simpl. now rewrite orb_true_r.
Qed.

Lemma extends_decodeUTF8 st r st1 cp :
  decodeUTF8 st = (r, st1, cp) -> extends st st1.
Proof.
  unfold decodeUTF8.
  destruct (convertUTF8Sequence (skipn (ptr st) (buf st))) as [[r0 n] cp0].
  intros [= <- <- <-]. apply extends_with_ptr.
Qed.

Lemma post_mono {A} (P Q : A -> Prop) (o : outcome A) :
  (forall a, P a -> Q a) -> post P o -> post Q o.
Proof. intros H. destruct o; simpl; auto. Qed.

(** The later state is reached from the earlier one by the state updates
    of the scanner, outermost last. *)
Ltac ext :=
  lazymatch goal with
  | |- extends ?s ?s => apply extends_refl
  | H : decodeUTF8 ?s = (_, ?l, _) |- extends ?s ?l =>
      exact (extends_decodeUTF8 _ _ _ _ H)
  | |- extends ?s (advance ?n ?x) =>
      apply (extends_trans s x); [ext | apply extends_advance]
  | |- extends ?s (newline ?n ?x) =>
      apply (extends_trans s x); [ext | apply extends_newline]
  | |- extends ?s (diagnoseUnexpectedNull ?x) =>
      apply (extends_trans s x); [ext | apply extends_diagnoseUnexpectedNull]
  | |- extends ?s (diagnoseInvalidUTF8 ?x) =>
      apply (extends_trans s x); [ext | apply extends_diagnoseInvalidUTF8]
  | |- extends ?s (with_col ?x _) =>
      apply (extends_trans s x); [ext | apply extends_with_col]
  | |- extends ?s (with_line ?x _) =>
      apply (extends_trans s x); [ext | apply extends_with_line]
  | |- extends ?s (with_ptr ?x _) =>
      apply (extends_trans s x); [ext | apply extends_with_ptr]
  | |- extends ?s (print ?x _ _ UnexpectedEndOfFileInComment) =>
      apply (extends_trans s x); [ext | apply extends_print_end_of_file]
  | |- extends ?s (report ?x _ _ _) =>
      apply (extends_trans s x);
      [ext | apply extends_report; reflexivity]
  end.

(** A recursive call from a later state. *)
Ltac ext_rec IH :=
  eapply post_mono; [| apply IH];
  let a := fresh in let H := fresh in
  intros a H; cbn beta in H |- *;
  eapply extends_trans; [| exact H]; ext.

Lemma skipHorizontalWhitespace_extends fuel : forall st,
  post (extends st) (skipHorizontalWhitespace fuel st).
Proof.
  induction fuel as [| f IH]; intros st; [exact I |].
  cbn [skipHorizontalWhitespace].
  repeat split_step; [ext_rec IH | cbn [post]; ext].
Qed.

Lemma lexSingleLineComment_loop_extends fuel : forall st alt tok,
  post (fun r => extends st (snd (fst r)))
       (lexSingleLineComment_loop fuel st alt tok).
Proof.
  induction fuel as [| f IH]; intros st alt tok; [exact I |].
  cbn [lexSingleLineComment_loop].
  repeat split_step;
    first [ext_rec IH | cbn [post fst snd]; ext].
Qed.

Lemma lexMultiLineComment_loop_extends fuel : forall st alt tok,
  post (fun r => extends st (snd (fst (fst r))))
       (lexMultiLineComment_loop fuel st alt tok).
Proof.
  induction fuel as [| f IH]; intros st alt tok; [exact I |].
  cbn [lexMultiLineComment_loop].
  repeat split_step;
    first [ext_rec IH | cbn [post fst snd]; ext].
Qed.

Lemma lexFloatLiteral_fraction_extends fuel : forall st,
  post (extends st) (lexFloatLiteral_fraction fuel st).
Proof.
  induction fuel as [| f IH]; intros st; [exact I |].
  cbn [lexFloatLiteral_fraction].
  repeat split_step; [ext_rec IH | cbn [post]; ext].
Qed.

Lemma lexFloatLiteral_exponent_extends fuel : forall sp sc alt st tok,
  post (fun r => extends st (fst r))
       (lexFloatLiteral_exponent fuel sp sc alt st tok).
Proof.
  induction fuel as [| f IH]; intros sp sc alt st tok; [exact I |].
  cbn [lexFloatLiteral_exponent].
  repeat split_step;
    first [ext_rec IH | cbn [bind post fst snd]; ext].
Qed.

Lemma lexFloatLiteral_extends fuel sp sc alt st tok :
  post (fun r => extends st (fst r))
       (lexFloatLiteral fuel sp sc alt st tok).
Proof.
  unfold lexFloatLiteral. apply post_bind.
  eapply post_mono; [| apply lexFloatLiteral_fraction_extends].
  intros st1 H1. cbn beta.
  repeat split_step;
    first
      [ eapply post_mono; [| apply lexFloatLiteral_exponent_extends];
        let a := fresh in let H := fresh in
        intros a H; cbn beta in H |- *;
        eapply extends_trans; [| exact H];
        eapply extends_trans; [exact H1 | ext]
      | cbn [post fst snd]; exact H1 ].
Qed.

Lemma lexNumericLiteral_loop_extends fuel : forall sp sc alt st tok,
  post (fun r => extends st (fst r))
       (lexNumericLiteral_loop fuel sp sc alt st tok).
Proof.
  induction fuel as [| f IH]; intros sp sc alt st tok; [exact I |].
  cbn [lexNumericLiteral_loop].
  repeat split_step;
    first [ ext_rec IH
          | apply lexFloatLiteral_extends
          | cbn [bind post fst snd]; ext ].
Qed.

Lemma lexRadixLiteral_loop_extends caseDigit isRadixDigit literal
    bigIntLiteral fuel : forall sp sc alt st tok,
  post (fun r => extends st (fst r))
       (lexRadixLiteral_loop caseDigit isRadixDigit literal bigIntLiteral
          fuel sp sc alt st tok).
Proof.
  induction fuel as [| f IH]; intros sp sc alt st tok; [exact I |].
  cbn [lexRadixLiteral_loop].
  repeat split_step;
    first [ext_rec IH | cbn [bind post fst snd]; ext].
Qed.

Lemma lexRadixLiteral_extends caseDigit isRadixDigit literal bigIntLiteral
    type prefix fuel st alt tok :
  post (fun r => extends st (fst r))
       (lexRadixLiteral caseDigit isRadixDigit literal bigIntLiteral
          type prefix fuel st alt tok).
Proof.
  unfold lexRadixLiteral.
  repeat split_step;
    first [ ext_rec (lexRadixLiteral_loop_extends caseDigit isRadixDigit
                       literal bigIntLiteral fuel)
          | cbn [bind post fst snd]; ext ].
Qed.

Lemma lexLegacyOctalLiteral_loop_extends opts fuel :
  forall sp sc alt st tok,
    post (fun r => extends st (fst r))
         (lexLegacyOctalLiteral_loop opts fuel sp sc alt st tok).
Proof.
  induction fuel as [| f IH]; intros sp sc alt st tok; [exact I |].
  cbn [lexLegacyOctalLiteral_loop].
  repeat split_step;
    first [ext_rec IH | cbn [bind post fst snd]; ext].
Qed.

Lemma lexStrLiteral_loop_extends quote fuel : forall sp sc alt st tok,
  post (fun r => extends st (fst r))
       (lexStrLiteral_loop quote fuel sp sc alt st tok).
Proof.
  induction fuel as [| f IH]; intros sp sc alt st tok; [exact I |].
  cbn [lexStrLiteral_loop].
  repeat split_step;
    first [ext_rec IH | cbn [post fst snd]; ext].
Qed.

(** The dispatcher: every state a call returns is a later state of the one
    it was given. *)
Lemma lexToken_loop_extends opts fuel : forall st alt tok,
  post (fun r => extends st (fst r)) (lexToken_loop opts fuel st alt tok).
Proof.
  induction fuel as [| f IH]; intros st0 alt tok; [exact I |].
  cbn [lexToken_loop]. apply post_bind.
  eapply post_mono; [| apply skipHorizontalWhitespace_extends].
  intros st H0. cbn beta. unfold emit.
  assert (Hsub : forall x (o : outcome (Lexer * Token.t)),
            extends st x ->
            post (fun r => extends x (fst r)) o ->
            post (fun r => extends st0 (fst r)) o).
  { intros x o Hx. apply post_mono. intros a Ha.
    eapply extends_trans; [exact H0 |].
    eapply extends_trans; [exact Hx | exact Ha]. }
  assert (Hret : forall x (t : Token.t),
            extends st x -> post (fun r => extends st0 (fst r)) (Ret (x, t))).
  { intros x t Hx. cbn [post fst]. eapply extends_trans; eassumption. }
  repeat match goal with
  | |- context [match peek ?s ?k with _ => _ end] =>
      destruct (peek s k) eqn:?; [| exact I]
  | |- context [if Z.eqb ?a ?b then _ else _] => destruct (Z.eqb a b)
  | |- context [if Nat.eqb ?a ?b then _ else _] => destruct (Nat.eqb a b)
  | |- context [if orb ?a ?b then _ else _] => destruct (orb a b)
  | |- context [if andb ?a ?b then _ else _] => destruct (andb a b)
  | |- context [if caseOctal ?a then _ else _] => destruct (caseOctal a)
  end;
  try (apply Hret; ext);
  try (eapply Hsub; [| apply IH]; ext);
  try (eapply Hsub; [| apply lexNumericLiteral_loop_extends]; ext);
  try (eapply Hsub; [| apply lexFloatLiteral_extends]; ext);
  try (eapply Hsub; [| apply lexRadixLiteral_extends]; ext);
  try (eapply Hsub; [| apply lexLegacyOctalLiteral_loop_extends]; ext);
  try (eapply Hsub; [| apply lexStrLiteral_loop_extends]; ext).
  - apply post_bind. unfold lexSingleLineComment.
    eapply post_mono;
      [| apply (lexSingleLineComment_loop_extends f (advance 2 st) alt tok)].
    intros [[more st1] tok1] H1. cbn [fst snd] in H1.
    destruct more.
    + eapply Hsub; [| apply IH].
      eapply extends_trans; [| exact H1]. ext.
    + apply Hret. eapply extends_trans; [| exact H1]. ext.
  - apply post_bind. unfold lexMultiLineComment.
    eapply post_mono;
      [| apply (lexMultiLineComment_loop_extends f (advance 2 st) alt tok)].
    intros [[[more st1] tok1] alt1] H1. cbn [fst snd] in H1.
    destruct more.
    + eapply Hsub; [| apply IH].
      eapply extends_trans; [| exact H1]. ext.
    + apply Hret. eapply extends_trans; [| exact H1]. ext.
Qed.

Lemma lexToken_repeat_extends opts fuel n : forall st tok,
  post (fun r => extends st (fst r)) (lexToken_repeat opts fuel n st tok).
Proof.
  induction n as [| n IH]; intros st tok.
  - cbn [lexToken_repeat post fst]. apply extends_refl.
  - cbn [lexToken_repeat]. apply post_bind. unfold lexToken.
    eapply post_mono; [| apply lexToken_loop_extends].
    intros [st1 tok1] H1. cbn [fst snd] in *.
    eapply post_mono; [| apply IH].
    intros a Ha. eapply extends_trans; eassumption.
Qed.

(** X1.  However many calls of [lexToken] a scan makes, the buffer, its end
    and the file path of the scanner are what they were at the start. *)
Theorem lexToken_repeat_keeps_buffer opts fuel n st tok st' tok' :
  lexToken_repeat opts fuel n st tok = Ret (st', tok') ->
  buf st' = buf st /\ endPtr st' = endPtr st /\ filePath st' = filePath st.
Proof.
  intros Hrun.
  pose proof (lexToken_repeat_extends opts fuel n st tok) as H.
  rewrite Hrun in H. cbn [post fst] in H. destruct H as [B P _ _ _].
  unfold endPtr. rewrite B. auto.
Qed.

Lemma lexToken_repeat_keeps_buffer_witness :
  let st := Lexer_new (bytes_of_string "1_ + 'a'") "a.ts" in
  let tok := Token.mk FileEnd 0 0 (mkStringRef 0 0) false in
  exists st' tok',
    lexToken_repeat (mkUserOpts true) 9 4 st tok = Ret (st', tok')
    /\ buf st' = buf st /\ endPtr st' = endPtr st
    /\ filePath st' = filePath st.
Proof.
  intros st tok.
  assert (Hrun : exists st' tok',
            lexToken_repeat (mkUserOpts true) 9 4 st tok = Ret (st', tok'))
    by (vm_compute; eexists; eexists; reflexivity).
  destruct Hrun as (st' & tok' & Hrun). exists st', tok'.
  split; [exact Hrun |].
  exact (lexToken_repeat_keeps_buffer _ _ _ _ _ _ _ Hrun).
Defined.



(** X3.  Over any number of calls of [lexToken] the diagnostics printed
    before stay and new ones are appended, and [lexerFailed] afterwards is
    true exactly if it was true before or one of the new messages is not the
    unterminated-comment message: the flag is never lowered, and every
    message but that one raises it. *)
Theorem lexToken_repeat_failed_flag opts fuel n st tok st' tok' :
  lexToken_repeat opts fuel n st tok = Ret (st', tok') ->
  exists d,
    errs st' = errs st ++ d
    /\ lexerFailed st' = lexerFailed st || flagged d
    /\ (lexerFailed st = true -> lexerFailed st' = true).
Proof.
  intros Hrun.
  pose proof (lexToken_repeat_extends opts fuel n st tok) as H.
  rewrite Hrun in H. cbn [post fst] in H.
  destruct H as [_ _ _ _ (d & E & F)].
  exists d. repeat split; auto.
  intros Hf. now rewrite F, Hf.
Qed.

Lemma lexToken_repeat_failed_flag_witness :
  let st := Lexer_new (bytes_of_string "0b 1_ /*") "a.ts" in
  let tok := Token.mk FileEnd 0 0 (mkStringRef 0 0) false in
  exists st' tok',
    lexToken_repeat (mkUserOpts true) 9 3 st tok = Ret (st', tok')
    /\ exists d,
         errs st' = errs st ++ d
         /\ lexerFailed st' = lexerFailed st || flagged d
         /\ (lexerFailed st = true -> lexerFailed st' = true).
Proof.
  intros st tok.
  assert (Hrun : exists st' tok',
            lexToken_repeat (mkUserOpts true) 9 3 st tok = Ret (st', tok'))
    by (vm_compute; eexists; eexists; reflexivity).
  destruct Hrun as (st' & tok' & Hrun). exists st', tok'.
  split; [exact Hrun |].
  exact (lexToken_repeat_failed_flag _ _ _ _ _ _ _ Hrun).
Defined.

(** X4.  Over any number of calls of [lexToken] that return, a pointer
    that starts within [[bufPtr, endPtr]] stays there: a scan that comes
    back to its caller has not left the buffer. *)
Theorem lexToken_repeat_in_bounds opts fuel n : forall st tok st' tok',
  in_bounds st ->
  lexToken_repeat opts fuel n st tok = Ret (st', tok') ->
  in_bounds st'.
Proof.
  induction n as [| n IH]; intros st tok st' tok' Hin Hrun.
  - cbn [lexToken_repeat] in Hrun. now injection Hrun as <- _.
  - cbn [lexToken_repeat] in Hrun.
    pose proof (lexToken_loop_bounds opts fuel st false tok) as H.
    unfold lexToken in Hrun.
    destruct (lexToken_loop opts fuel st false tok) as [[s1 t1] | s |];
      cbn [bind fst snd] in Hrun; [| discriminate | discriminate].
    exact (IH s1 t1 st' tok' H Hrun).
Qed.

Lemma lexToken_repeat_in_bounds_witness :
  let st := Lexer_new (bytes_of_string "'a' >>>= 12n") "a.ts" in
  let tok := Token.mk FileEnd 0 0 (mkStringRef 0 0) false in
  in_bounds st
  /\ exists st' tok',
       lexToken_repeat (mkUserOpts true) 9 3 st tok = Ret (st', tok')
       /\ in_bounds st'.
Proof.
  intros st tok.
  assert (Hin : in_bounds st)
    by (split; apply Nat.leb_le; reflexivity).
  split; [exact Hin |].
  assert (Hrun : exists st' tok',
            lexToken_repeat (mkUserOpts true) 9 3 st tok = Ret (st', tok'))
    by (vm_compute; eexists; eexists; reflexivity).
  destruct Hrun as (st' & tok' & Hrun). exists st', tok'.
  split; [exact Hrun |].
  exact (lexToken_repeat_in_bounds _ _ _ _ _ _ _ Hin Hrun).
Defined.

(** ** The lexeme written by a call *)

Lemma post_and {A} (P Q : A -> Prop) (o : outcome A) :
  post P o -> post Q o -> post (fun a => P a /\ Q a) o.
Proof. destruct o; simpl; auto. Qed.

Ltac lexeme_leaf :=
  cbn [bind post]; unfold lexeme_post; simpl; split; [reflexivity | lia].

Lemma lexFloatLiteral_exponent_lexeme fuel : forall sp sc alt st tok,
  (sp <= ptr st)%nat ->
  post (lexeme_post sp) (lexFloatLiteral_exponent fuel sp sc alt st tok).
Proof.
  induction fuel as [| f IH]; intros sp sc alt st tok Hsp; [exact I |].
  cbn [lexFloatLiteral_exponent].
  repeat split_step; first [apply IH; simpl; lia | lexeme_leaf].
Qed.

Lemma lexFloatLiteral_lexeme fuel sp sc alt st tok :
  (sp <= ptr st)%nat ->
  post (lexeme_post sp) (lexFloatLiteral fuel sp sc alt st tok).
Proof.
  intros Hsp. unfold lexFloatLiteral. apply post_bind.
  eapply post_mono; [| apply lexFloatLiteral_fraction_extends].
  intros st1 [_ _ H1 _ _]. cbn beta.
  repeat split_step;
    first [ apply lexFloatLiteral_exponent_lexeme; simpl; lia
          | lexeme_leaf ].
Qed.

Lemma lexNumericLiteral_loop_lexeme fuel : forall sp sc alt st tok,
  (sp <= ptr st)%nat ->
  post (lexeme_post sp) (lexNumericLiteral_loop fuel sp sc alt st tok).
Proof.
  induction fuel as [| f IH]; intros sp sc alt st tok Hsp; [exact I |].
  cbn [lexNumericLiteral_loop].
  repeat split_step;
    first [ apply IH; simpl; lia
          | apply lexFloatLiteral_lexeme; exact Hsp
          | lexeme_leaf ].
Qed.

Lemma lexRadixLiteral_loop_lexeme caseDigit isRadixDigit literal
    bigIntLiteral fuel : forall sp sc alt st tok,
  (sp <= ptr st)%nat ->
  post (lexeme_post sp)
       (lexRadixLiteral_loop caseDigit isRadixDigit literal bigIntLiteral
          fuel sp sc alt st tok).
Proof.
  induction fuel as [| f IH]; intros sp sc alt st tok Hsp; [exact I |].
  cbn [lexRadixLiteral_loop].
  repeat split_step; first [apply IH; simpl; lia | lexeme_leaf].
Qed.

Lemma lexRadixLiteral_text caseDigit isRadixDigit literal bigIntLiteral
    type prefix fuel st alt tok :
  post (text_post (ptr st) tok)
       (lexRadixLiteral caseDigit isRadixDigit literal bigIntLiteral
          type prefix fuel st alt tok).
Proof.
  unfold lexRadixLiteral.
  repeat split_step.
  - cbn [bind post]. left. reflexivity.
  - eapply post_mono;
      [| apply lexRadixLiteral_loop_lexeme; simpl; lia].
    intros r [Hd Hs]. right. rewrite Hd. simpl in *. split; lia.
Qed.

Lemma lexLegacyOctalLiteral_loop_lexeme opts fuel :
  forall sp sc alt st tok,
    (sp <= ptr st)%nat ->
    post (lexeme_post sp)
         (lexLegacyOctalLiteral_loop opts fuel sp sc alt st tok).
Proof.
  induction fuel as [| f IH]; intros sp sc alt st tok Hsp; [exact I |].
  cbn [lexLegacyOctalLiteral_loop].
  repeat split_step; first [apply IH; simpl; lia | lexeme_leaf].
Qed.

Lemma lexStrLiteral_loop_lexeme quote fuel : forall sp sc alt st tok,
  (sp <= ptr st)%nat ->
  post (lexeme_post sp) (lexStrLiteral_loop quote fuel sp sc alt st tok).
Proof.
  induction fuel as [| f IH]; intros sp sc alt st tok Hsp; [exact I |].
  cbn [lexStrLiteral_loop].
  repeat split_step;
    try match goal with
        | H : decodeUTF8 _ = _ |- _ =>
            apply extends_decodeUTF8 in H; destruct H as [_ _ H _ _]
        end;
    first [apply IH; simpl; lia | lexeme_leaf].
Qed.

Lemma text_post_weaken p q tok r :
  (p <= q)%nat -> text_post q tok r -> text_post p tok r.
Proof. intros Hpq [H | [H1 H2]]; [now left | right; split; lia]. Qed.

Lemma lexeme_text_post p sp tok r :
  (p <= sp)%nat -> lexeme_post sp r -> text_post p tok r.
Proof. intros Hp [Hd Hs]. right. rewrite Hd. split; lia. Qed.

Lemma lexToken_loop_text opts fuel : forall st alt tok,
  post (text_post (ptr st) tok) (lexToken_loop opts fuel st alt tok).
Proof.
  induction fuel as [| f IH]; intros st0 alt tok; [exact I |].
  cbn [lexToken_loop]. apply post_bind.
  eapply post_mono; [| apply skipHorizontalWhitespace_extends].
  intros st [_ _ H0 _ _]. cbn beta. unfold emit.
  assert (Hrec : forall x a,
            (ptr st <= ptr x)%nat ->
            post (text_post (ptr st0) tok) (lexToken_loop opts f x a tok)).
  { intros x a Hx. eapply post_mono; [| apply IH].
    intros r. apply text_post_weaken. lia. }
  assert (Hlex : forall sp (o : outcome (Lexer * Token.t)),
            (ptr st <= sp)%nat ->
            post (lexeme_post sp) o -> post (text_post (ptr st0) tok) o).
  { intros sp o Hsp. apply post_mono. intros r.
    apply lexeme_text_post. lia. }
  repeat match goal with
  | |- context [match peek ?s ?k with _ => _ end] =>
      destruct (peek s k) eqn:?; [| exact I]
  | |- context [if Z.eqb ?a ?b then _ else _] => destruct (Z.eqb a b)
  | |- context [if Nat.eqb ?a ?b then _ else _] => destruct (Nat.eqb a b)
  | |- context [if orb ?a ?b then _ else _] => destruct (orb a b)
  | |- context [if andb ?a ?b then _ else _] => destruct (andb a b)
  | |- context [if caseOctal ?a then _ else _] => destruct (caseOctal a)
  end;
  try (cbn [post]; left; reflexivity);
  try (apply Hrec; simpl; lia);
  try (eapply Hlex;
       [| first [ apply lexNumericLiteral_loop_lexeme
                | apply lexFloatLiteral_lexeme
                | apply lexLegacyOctalLiteral_loop_lexeme
                | apply lexStrLiteral_loop_lexeme ] ]; simpl; lia);
  try (eapply post_mono; [| apply lexRadixLiteral_text];
       intros r; apply text_post_weaken; lia).
  - apply post_bind. unfold lexSingleLineComment.
    eapply post_mono;
      [| apply post_and;
         [ apply (lexSingleLineComment_loop_post f (advance 2 st) alt tok)
         | apply (lexSingleLineComment_loop_extends f (advance 2 st) alt
                    tok) ] ].
    intros [[more st1] tok1] [Hc [_ _ Hp _ _]]. cbn [fst snd] in *.
    unfold comment_post in Hc. destruct more.
    + subst tok1. apply Hrec. simpl in Hp. lia.
    + destruct Hc as [_ (l & c & a & ->)]. cbn [post]. left. reflexivity.
  - apply post_bind. unfold lexMultiLineComment.
    eapply post_mono;
      [| apply post_and;
         [ apply (lexMultiLineComment_loop_post f (advance 2 st) alt tok)
         | apply (lexMultiLineComment_loop_extends f (advance 2 st) alt
                    tok) ] ].
    intros [[[more st1] tok1] alt1] [Hc [_ _ Hp _ _]]. cbn [fst snd] in *.
    unfold comment_post in Hc. destruct more.
    + subst tok1. apply Hrec. simpl in Hp. lia.
    + destruct Hc as [_ (l & c & a & ->)]. cbn [post]. left. reflexivity.
Qed.

(** X5.  When a call of [lexToken] returns, the slot's text is either what
    it was before the call or a slice that starts at or after the pointer
    the call was given and ends at or before the pointer it leaves, which
    is within the buffer: a lexeme covers only bytes of the buffer that this
    call consumed. *)
Theorem lexToken_lexeme_within_consumed opts fuel st tok st' tok' :
  lexToken opts fuel st tok = Ret (st', tok') ->
  Token.text tok' = Token.text tok
  \/ ((ptr st <= data (Token.text tok'))%nat
      /\ (data (Token.text tok') + size (Token.text tok') <= ptr st')%nat
      /\ (ptr st' <= endPtr st')%nat).
Proof.
  intros Hrun.
  pose proof (lexToken_loop_text opts fuel st false tok) as H.
  pose proof (lexToken_loop_bounds opts fuel st false tok) as B.
  unfold lexToken in Hrun. rewrite Hrun in H, B.
  cbn [post fst snd] in H, B. destruct B as [_ B].
  destruct H as [H | [H1 H2]]; [now left | right; auto].
Qed.

Lemma lexToken_lexeme_within_consumed_witness :
  let st := Lexer_new (bytes_of_string "  0x1F_n") "a.ts" in
  let tok := Token.mk FileEnd 0 0 (mkStringRef 0 0) false in
  exists st' tok',
    lexToken (mkUserOpts true) 9 st tok = Ret (st', tok')
    /\ (Token.text tok' = Token.text tok
        \/ ((ptr st <= data (Token.text tok'))%nat
            /\ (data (Token.text tok') + size (Token.text tok')
                <= ptr st')%nat
            /\ (ptr st' <= endPtr st')%nat)).
Proof.
  intros st tok.
  assert (Hrun : exists st' tok',
            lexToken (mkUserOpts true) 9 st tok = Ret (st', tok'))
    by (vm_compute; eexists; eexists; reflexivity).
  destruct Hrun as (st' & tok' & Hrun). exists st', tok'.
  split; [exact Hrun |].
  exact (lexToken_lexeme_within_consumed _ _ _ _ _ _ Hrun).
Defined.

(** ** What the strict-mode option changes *)

Lemma strict_rel_refl o : strict_rel o o.
Proof. destruct o as [[s t] | |]; simpl; auto. Qed.

Ltac split_both :=
  match goal with
  | |- context [match peek ?s ?k with _ => _ end] =>
      destruct (peek s k) eqn:?
  | |- context [if ?c then _ else _] => destruct c eqn:?
  | |- context [bind (diagnoseInvalidNumericSeparator ?s) _] =>
      unfold diagnoseInvalidNumericSeparator
  end.

Lemma lexLegacyOctalLiteral_loop_strict fuel : forall sp sc alt st tok,
  strict_rel
    (lexLegacyOctalLiteral_loop (mkUserOpts true) fuel sp sc alt st tok)
    (lexLegacyOctalLiteral_loop (mkUserOpts false) fuel sp sc alt st tok).
Proof.
  induction fuel as [| f IH]; intros sp sc alt st tok; [exact I |].
  cbn [lexLegacyOctalLiteral_loop strictModeEnabled].
  repeat split_both;
    first [ apply IH
          | apply strict_rel_refl
          | cbn [strict_rel]; split; [reflexivity | right; eauto] ].
Qed.

(** X6.  The strict-mode option changes nothing in a call of [lexToken]
    but the report on a legacy octal literal: with the option on and with
    it off the call has the same kind of outcome and writes the same token,
    and the returned states are equal or differ by that one report (the
    message and the raised flag). *)
Theorem lexToken_strict_mode_only_reports fuel : forall st alt tok,
  strict_rel (lexToken_loop (mkUserOpts true) fuel st alt tok)
             (lexToken_loop (mkUserOpts false) fuel st alt tok).
Proof.
  induction fuel as [| f IH]; intros st0 alt tok; [exact I |].
  cbn [lexToken_loop].
  destruct (skipHorizontalWhitespace f st0) as [st | s |];
    cbn [bind]; [| reflexivity | exact I].
  unfold emit.
  repeat match goal with
  | |- context [match peek ?s ?k with _ => _ end] =>
      destruct (peek s k) eqn:?; [| reflexivity]
  | |- context [if Z.eqb ?a ?b then _ else _] => destruct (Z.eqb a b)
  | |- context [if Nat.eqb ?a ?b then _ else _] => destruct (Nat.eqb a b)
  | |- context [if orb ?a ?b then _ else _] => destruct (orb a b)
  | |- context [if andb ?a ?b then _ else _] => destruct (andb a b)
  | |- context [if caseOctal ?a then _ else _] => destruct (caseOctal a)
  end;
  try apply IH;
  try apply strict_rel_refl;
  try apply lexLegacyOctalLiteral_loop_strict.
  - destruct (lexSingleLineComment f st alt tok)
      as [[[more st1] tok1] | s |]; cbn [bind];
      [| reflexivity | exact I].
    destruct more; [apply IH | apply strict_rel_refl].
  - destruct (lexMultiLineComment f st alt tok)
      as [[[[more st1] tok1] alt1] | s |]; cbn [bind];
      [| reflexivity | exact I].
    destruct more; [apply IH | apply strict_rel_refl].
Qed.

(** ** Runs of bytes *)

Lemma advance_0 st : advance 0 st = st.
Proof.
  destruct st. unfold advance, with_col, with_ptr. simpl.
  f_equal; lia.
Qed.

Lemma skipHorizontalWhitespace_run n : forall fuel st c,
  (forall i, (i < n)%nat ->
     exists b, peek st i = Some b /\ isHorizontalWhitespace b = true) ->
  peek st n = Some c -> isHorizontalWhitespace c = false ->
  skipHorizontalWhitespace (S n + fuel) st = Ret (advance n st).
Proof.
  induction n as [| n IH]; intros fuel st c Hws Hc Hn.
  - rewrite advance_0. now apply (skipHorizontalWhitespace_stop _ _ c).
  - change (S (S n) + fuel)%nat with (S (S n + fuel)).
    cbn [skipHorizontalWhitespace].
    destruct (Hws 0%nat) as (b & Hb & Hbw); [lia |].
    rewrite Hb, Hbw.
    rewrite (IH fuel (advance 1 st) c).
    + now rewrite advance_advance.
    + intros i Hi. rewrite peek_advance. apply (Hws (S i)). lia.
    + rewrite peek_advance. exact Hc.
    + exact Hn.
Qed.

(** X7.  Horizontal whitespace in front of a token only moves pointer and
    column: from a state that stands on [n] bytes of TAB, VT, FF or SPACE
    followed by another byte, [lexToken] does what it does from the state
    advanced by [n]. *)
Theorem lexToken_loop_skips_whitespace opts n fuel st alt tok c :
  (forall i, (i < n)%nat ->
     exists b, peek st i = Some b /\ isHorizontalWhitespace b = true) ->
  peek st n = Some c -> isHorizontalWhitespace c = false ->
  lexToken_loop opts (S (S n + fuel)) st alt tok =
    lexToken_loop opts (S (S n + fuel)) (advance n st) alt tok.
Proof.
  intros Hws Hc Hn.
  cbn [lexToken_loop].
  rewrite (skipHorizontalWhitespace_run n fuel st c Hws Hc Hn).
  change (S n + fuel)%nat with (S (n + fuel)).
  rewrite (skipHorizontalWhitespace_stop (n + fuel) (advance n st) c).
  - reflexivity.
  - rewrite peek_advance, Nat.add_0_r. exact Hc.
  - exact Hn.
Qed.

Lemma lexToken_loop_skips_whitespace_witness :
  let st := Lexer_new [chr " "; 9; 11; 12; chr ";"] "a.ts" in
  let tok := Token.mk FileEnd 0 0 (mkStringRef 0 0) false in
  lexToken_loop (mkUserOpts true) 6 st false tok =
    lexToken_loop (mkUserOpts true) 6 (advance 4 st) false tok
  /\ lexToken_loop (mkUserOpts true) 6 st false tok =
       Ret (advance 5 st, Token.set tok Semicolon 1 5 false).
Proof.
  intros st tok. split; [| reflexivity].
  apply (lexToken_loop_skips_whitespace (mkUserOpts true) 4 0 st false tok
           (chr ";")); [| reflexivity | reflexivity].
  intros i Hi.
  destruct i as [| [| [| [| i]]]]; [| | | | lia];
    eexists; split; reflexivity.
Defined.

(** ** Literals and comments, byte by byte *)

Lemma lexNumericLiteral_loop_digits n : forall fuel sp sc alt st tok,
  (forall i, (i < n)%nat ->
     exists d, peek st i = Some d /\ caseDecimal d = true) ->
  lexNumericLiteral_loop (n + fuel) sp sc alt st tok =
    lexNumericLiteral_loop fuel sp sc alt (advance n st) tok.
Proof.
  induction n as [| n IH]; intros fuel sp sc alt st tok Hdig.
  - now rewrite advance_0.
  - change (S n + fuel)%nat with (S (n + fuel)).
    cbn [lexNumericLiteral_loop].
    destruct (Hdig 0%nat) as (d & Hd & Hdd); [lia |].
    rewrite Hd, Hdd. rewrite IH.
    + now rewrite advance_advance.
    + intros i Hi. rewrite peek_advance. apply (Hdig (S i)). lia.
Qed.

(** X8.  A decimal literal: a digit ['1'] to ['9'], then [n] further digits,
    then a byte that is no digit, separator, BigInt suffix or point.  The
    scanner writes a [DecimalLiteral] placed at the first digit whose lexeme
    is exactly the [S n] digits, stops on the byte behind them and reports
    nothing.  If the byte behind the digits is the suffix [n], the token is
    a [DecimalBigIntLiteral] with the same lexeme and the suffix is
    consumed as well. *)
Theorem lexToken_loop_decimal_literal opts n fuel st alt tok d0 t :
  peek st 0 = Some d0 ->
  (chr "1" <=? d0) && (d0 <=? chr "9") = true ->
  (forall i, (i < n)%nat ->
     exists d, peek st (S i) = Some d /\ caseDecimal d = true) ->
  peek st (S n) = Some t ->
  (caseDecimal t = false -> t <> chr "_" -> t <> chr "n" -> t <> chr "." ->
   lexToken_loop opts (S (S n + fuel)) st alt tok =
     Ret (advance (S n) st,
          Token.setText tok DecimalLiteral (line st) (col st) alt
            (mkStringRef (ptr st) (S n))))
  /\ (t = chr "n" ->
      lexToken_loop opts (S (S n + fuel)) st alt tok =
        Ret (advance (S (S n)) st,
             Token.setText tok DecimalBigIntLiteral (line st) (col st) alt
               (mkStringRef (ptr st) (S n)))).
Proof.
  intros H0 Hd0 Hdig Ht.
  assert (Hne : forall v, (chr "1" <=? v) && (v <=? chr "9") = false ->
                          (d0 =? v) = false).
  { intros v Hv. apply Z.eqb_neq. intros ->. congruence. }
  assert (Hw : isHorizontalWhitespace d0 = false).
  { unfold isHorizontalWhitespace.
    rewrite !Hne by reflexivity. reflexivity. }
  assert (Hgo : lexToken_loop opts (S (S n + fuel)) st alt tok =
                lexNumericLiteral_loop (S fuel) (ptr st) (col st) alt
                  (advance (S n) st) tok).
  { cbn [lexToken_loop].
    change (S n + fuel)%nat with (S (n + fuel)).
    rewrite (skipHorizontalWhitespace_stop (n + fuel) st d0 H0 Hw).
    cbn [bind]. rewrite H0, Hd0.
    rewrite !Hne by reflexivity.
    unfold lexNumericLiteral.
    replace (S (n + fuel)) with (n + S fuel)%nat by lia.
    rewrite lexNumericLiteral_loop_digits.
    - now rewrite advance_advance.
    - intros i Hi. rewrite peek_advance. now apply Hdig. }
  rewrite Hgo. cbn [lexNumericLiteral_loop].
  rewrite peek_advance, Nat.add_0_r, Ht.
  split.
  - intros Hc Hu Hn Hp.
    apply Z.eqb_neq in Hu, Hn, Hp. rewrite Hc, Hu, Hn, Hp.
    unfold lexeme. repeat f_equal. simpl. lia.
  - intros ->. cbn [caseDecimal]. 
    change (caseDecimal (chr "n")) with false.
    change (chr "n" =? chr "_") with false.
    change (chr "n" =? chr "n") with true. cbv iota.
    rewrite advance_advance. unfold lexeme.
    replace (S n + 1)%nat with (S (S n)) by lia.
    repeat f_equal. simpl. lia.
Qed.

Ltac small_index :=
  let i := fresh "i" in let Hi := fresh "Hi" in
  intros i Hi;
  repeat (destruct i as [| i]; [eexists; repeat split; reflexivity |]);
  lia.

Lemma lexToken_loop_decimal_literal_witness :
  let st := Lexer_new (bytes_of_string "907n;") "a.ts" in
  let tok := Token.mk FileEnd 0 0 (mkStringRef 0 0) false in
  peek st 0 = Some (chr "9")
  /\ peek st 3 = Some (chr "n")
  /\ lexToken_loop (mkUserOpts true) 4 st false tok =
       Ret (advance 4 st,
            Token.setText tok DecimalBigIntLiteral 1 1 false
              (mkStringRef 0 3)).
Proof.
  intros st tok. split; [reflexivity |]. split; [reflexivity |].
  refine (proj2 (lexToken_loop_decimal_literal (mkUserOpts true) 2 0 st
                   false tok (chr "9") (chr "n") eq_refl eq_refl _ eq_refl)
            eq_refl).
  small_index.
Defined.

Lemma lexStrLiteral_loop_ascii quote n : forall fuel sp sc alt st tok,
  (forall i, (i < n)%nat ->
     exists b, peek st i = Some b /\ isAscii b = true /\ b <> quote) ->
  lexStrLiteral_loop quote (n + fuel) sp sc alt st tok =
    lexStrLiteral_loop quote fuel sp sc alt (advance n st) tok.
Proof.
  induction n as [| n IH]; intros fuel sp sc alt st tok Hb.
  - now rewrite advance_0.
  - change (S n + fuel)%nat with (S (n + fuel)).
    cbn [lexStrLiteral_loop].
    destruct (Hb 0%nat) as (b & Hp & Ha & Hq); [lia |].
    apply Z.eqb_neq in Hq. rewrite Hp, Hq, Ha. rewrite IH.
    + now rewrite advance_advance.
    + intros i Hi. rewrite peek_advance. apply (Hb (S i)). lia.
Qed.

(** X9.  A string literal: a quote, [n] ASCII bytes other than that quote,
    and the same quote again.  The scanner writes a [StringLiteral] placed
    at the opening quote whose lexeme is exactly the [n] bytes between the
    quotes, and stops behind the closing quote.  Nothing in the body is
    looked at: a line feed or a NUL in it is part of the lexeme, and the
    line counter stays as it was. *)
Theorem lexToken_loop_string_literal opts n fuel st alt tok q :
  q = 34 \/ q = chr "'" ->
  peek st 0 = Some q ->
  (forall i, (i < n)%nat ->
     exists b, peek st (S i) = Some b /\ isAscii b = true /\ b <> q) ->
  peek st (S n) = Some q ->
  lexToken_loop opts (S (S n + fuel)) st alt tok =
    Ret (advance (n + 2) st,
         Token.setText tok StringLiteral (line st) (col st) alt
           (mkStringRef (ptr st + 1) n)).
Proof.
  intros Hq H0 Hbody Hclose.
  assert (Hgo : lexToken_loop opts (S (S n + fuel)) st alt tok =
                lexStrLiteral_loop q (n + S fuel) (ptr st + 1) (col st) alt
                  (advance 1 st) tok).
  { cbn [lexToken_loop]. change (S n + fuel)%nat with (S (n + fuel)).
    replace (n + S fuel)%nat with (S (n + fuel)) by lia.
    destruct Hq as [-> | ->];
      rewrite (skipHorizontalWhitespace_stop (n + fuel) st _ H0 eq_refl);
      cbn [bind]; rewrite H0; reflexivity. }
  rewrite Hgo, lexStrLiteral_loop_ascii.
  - cbn [lexStrLiteral_loop]. rewrite advance_advance, peek_advance.
    replace (1 + n + 0)%nat with (S n) by lia.
    rewrite Hclose, Z.eqb_refl. rewrite advance_advance.
    replace (1 + n + 1)%nat with (n + 2)%nat by lia.
    unfold lexeme. repeat f_equal. simpl. lia.
  - intros i Hi. rewrite peek_advance. now apply Hbody.
Qed.

Lemma lexToken_loop_string_literal_witness :
  let st := Lexer_new [chr "'"; chr "a"; 10; 0; 34; chr "'"; chr ";"]
              "a.ts" in
  let tok := Token.mk FileEnd 0 0 (mkStringRef 0 0) false in
  peek st 0 = Some (chr "'")
  /\ peek st 5 = Some (chr "'")
  /\ lexToken_loop (mkUserOpts true) 6 st false tok =
       Ret (advance 6 st,
            Token.setText tok StringLiteral 1 1 false (mkStringRef 1 4))
  /\ line (advance 6 st) = 1.
Proof.
  intros st tok. split; [reflexivity |]. split; [reflexivity |].
  split; [| reflexivity].
  refine (lexToken_loop_string_literal (mkUserOpts true) 4 0 st false tok
            (chr "'") (or_intror eq_refl) eq_refl _ eq_refl).
  intros i Hi.
  repeat (destruct i as [| i];
          [eexists; split; [reflexivity |];
           split; [reflexivity | discriminate] |]).
  lia.
Defined.

Lemma plainCommentByte_tests b :
  plainCommentByte b = true ->
  (b =? 0) = false /\ (b =? 10) = false /\ (b =? 13) = false
  /\ isAscii b = true.
Proof.
  unfold plainCommentByte. intros H.
  repeat (apply andb_true_iff in H; destruct H as [H ?]).
  repeat match goal with
         | E : negb _ = true |- _ => apply negb_true_iff in E
         end.
  auto.
Qed.

Lemma lexSingleLineComment_loop_plain n : forall fuel st alt tok,
  (forall i, (i < n)%nat ->
     exists b, peek st i = Some b /\ plainCommentByte b = true) ->
  lexSingleLineComment_loop (n + fuel) st alt tok =
    lexSingleLineComment_loop fuel (advance n st) alt tok.
Proof.
  induction n as [| n IH]; intros fuel st alt tok Hb.
  - now rewrite advance_0.
  - change (S n + fuel)%nat with (S (n + fuel)).
    cbn [lexSingleLineComment_loop].
    destruct (Hb 0%nat) as (b & Hp & Hpl); [lia |].
    destruct (plainCommentByte_tests b Hpl) as (E0 & E1 & E2 & Ea).
    rewrite Hp, E0, E1, E2, Ea. rewrite IH.
    + now rewrite advance_advance.
    + intros i Hi. rewrite peek_advance. apply (Hb (S i)). lia.
Qed.

Lemma lexToken_loop_enters_single_line_comment opts f st alt tok :
  peek st 0 = Some (chr "/") -> peek st 1 = Some (chr "/") ->
  lexToken_loop opts (S (S f)) st alt tok =
    bind (lexSingleLineComment (S f) st alt tok)
      (fun r => let '(more, st1, tok1) := r in
                if more then lexToken_loop opts (S f) st1 true tok1
                else Ret (st1, tok1)).
Proof.
  intros H0 H1. cbn [lexToken_loop].
  rewrite (skipHorizontalWhitespace_stop f st _ H0 eq_refl).
  cbn [bind]. rewrite H0, H1. reflexivity.
Qed.

(** X10.  A single-line comment: [//], then [n] ASCII bytes other than NUL,
    LF and CR.  If a line feed follows, the comment and the line feed are
    skipped and the scan goes on at column 1 of the next line with the
    after-line-terminator flag set.  If the buffer ends there, the call
    writes [FileEnd] at the position of the end, with the flag as it was on
    entry, and the pointer is at [endPtr]. *)
Theorem lexToken_loop_single_line_comment opts n fuel st alt tok :
  peek st 0 = Some (chr "/") -> peek st 1 = Some (chr "/") ->
  (forall i, (i < n)%nat ->
     exists b, peek st (2 + i) = Some b /\ plainCommentByte b = true) ->
  (peek st (2 + n) = Some 10 ->
   lexToken_loop opts (S (S n + fuel)) st alt tok =
     lexToken_loop opts (S n + fuel) (newline 1 (advance (2 + n) st))
       true tok)
  /\ ((ptr st + (2 + n))%nat = endPtr st ->
      lexToken_loop opts (S (S n + fuel)) st alt tok =
        Ret (advance (2 + n) st,
             Token.set tok FileEnd (line st) (col st + Z.of_nat (2 + n))
               alt)).
Proof.
  intros H0 H1 Hbody.
  assert (Hgo : lexSingleLineComment (S (n + fuel)) st alt tok =
                lexSingleLineComment_loop (S fuel) (advance (2 + n) st)
                  alt tok).
  { unfold lexSingleLineComment.
    replace (S (n + fuel)) with (n + S fuel)%nat by lia.
    rewrite lexSingleLineComment_loop_plain.
    - now rewrite advance_advance.
    - intros i Hi. rewrite peek_advance. now apply Hbody. }
  change (S n + fuel)%nat with (S (n + fuel)).
  rewrite (lexToken_loop_enters_single_line_comment opts _ st alt tok H0 H1).
  rewrite Hgo. cbn [lexSingleLineComment_loop].
  rewrite peek_advance, Nat.add_0_r.
  split.
  - intros Hlf. rewrite Hlf. reflexivity.
  - intros Hend.
    assert (He : ptr (advance (2 + n) st) = endPtr (advance (2 + n) st))
      by exact Hend.
    pose proof (peek_at_end _ He) as Hp.
    rewrite peek_advance, Nat.add_0_r in Hp. rewrite Hp.
    cbn [Z.eqb]. rewrite He, Nat.eqb_refl. reflexivity.
Qed.

Lemma lexToken_loop_single_line_comment_witness :
  let st := Lexer_new (bytes_of_string "// to do") "a.ts" in
  let tok := Token.mk Semicolon 1 1 (mkStringRef 0 0) false in
  peek st 0 = Some (chr "/") /\ peek st 1 = Some (chr "/")
  /\ (ptr st + 8)%nat = endPtr st
  /\ lexToken_loop (mkUserOpts true) 8 st true tok =
       Ret (advance 8 st, Token.set tok FileEnd 1 9 true).
Proof.
  intros st tok. do 3 (split; [reflexivity |]).
  refine (proj2 (lexToken_loop_single_line_comment (mkUserOpts true) 6 0 st
                   true tok eq_refl eq_refl _) eq_refl).
  small_index.
Defined.

Lemma lexMultiLineComment_loop_plain n : forall fuel st alt tok,
  (forall i, (i < n)%nat ->
     exists b, peek st i = Some b /\ plainBlockByte b = true) ->
  lexMultiLineComment_loop (n + fuel) st alt tok =
    lexMultiLineComment_loop fuel (advance n st) alt tok.
Proof.
  induction n as [| n IH]; intros fuel st alt tok Hb.
  - now rewrite advance_0.
  - change (S n + fuel)%nat with (S (n + fuel)).
    cbn [lexMultiLineComment_loop].
    destruct (Hb 0%nat) as (b & Hp & Hpl); [lia |].
    unfold plainBlockByte in Hpl. apply andb_true_iff in Hpl.
    destruct Hpl as [Hpl Hs]. apply negb_true_iff in Hs.
    destruct (plainCommentByte_tests b Hpl) as (E0 & E1 & E2 & Ea).
    rewrite Hp, Hs, E0, E1, E2, Ea. rewrite IH.
    + now rewrite advance_advance.
    + intros i Hi. rewrite peek_advance. apply (Hb (S i)). lia.
Qed.

Lemma lexToken_loop_enters_multi_line_comment opts f st alt tok :
  peek st 0 = Some (chr "/") -> peek st 1 = Some (chr "*") ->
  lexToken_loop opts (S (S f)) st alt tok =
    bind (lexMultiLineComment (S f) st alt tok)
      (fun r => let '(more, st1, tok1, alt1) := r in
                if more then lexToken_loop opts (S f) st1 alt1 tok1
                else Ret (st1, tok1)).
Proof.
  intros H0 H1. cbn [lexToken_loop].
  rewrite (skipHorizontalWhitespace_stop f st _ H0 eq_refl).
  cbn [bind]. rewrite H0, H1. reflexivity.
Qed.

(** X11.  A multi-line comment: [/*], then [n] ASCII bytes other than NUL,
    LF, CR and [*].  If [*/] follows, the comment is skipped and the scan
    goes on behind it with line and after-line-terminator flag as they
    were.  If the buffer ends there, the call prints the unterminated
    comment message, writes [FileEnd], and leaves [lexerFailed] as it was:
    this one diagnostic does not raise the flag. *)
Theorem lexToken_loop_multi_line_comment opts n fuel st alt tok :
  peek st 0 = Some (chr "/") -> peek st 1 = Some (chr "*") ->
  (forall i, (i < n)%nat ->
     exists b, peek st (2 + i) = Some b /\ plainBlockByte b = true) ->
  (peek st (2 + n) = Some (chr "*") -> peek st (3 + n) = Some (chr "/") ->
   lexToken_loop opts (S (S n + fuel)) st alt tok =
     lexToken_loop opts (S n + fuel) (advance (4 + n) st) alt tok)
  /\ ((ptr st + (2 + n))%nat = endPtr st ->
      lexToken_loop opts (S (S n + fuel)) st alt tok =
        Ret (print (advance (2 + n) st) (line st)
               (col st + Z.of_nat (2 + n)) UnexpectedEndOfFileInComment,
             Token.set tok FileEnd (line st) (col st + Z.of_nat (2 + n))
               alt)
      /\ lexerFailed
           (print (advance (2 + n) st) (line st)
              (col st + Z.of_nat (2 + n)) UnexpectedEndOfFileInComment)
         = lexerFailed st).
Proof.
  intros H0 H1 Hbody.
  assert (Hgo : lexMultiLineComment (S (n + fuel)) st alt tok =
                lexMultiLineComment_loop (S fuel) (advance (2 + n) st)
                  alt tok).
  { unfold lexMultiLineComment.
    replace (S (n + fuel)) with (n + S fuel)%nat by lia.
    rewrite lexMultiLineComment_loop_plain.
    - now rewrite advance_advance.
    - intros i Hi. rewrite peek_advance. now apply Hbody. }
  change (S n + fuel)%nat with (S (n + fuel)).
  rewrite (lexToken_loop_enters_multi_line_comment opts _ st alt tok H0 H1).
  rewrite Hgo. cbn [lexMultiLineComment_loop].
  rewrite !peek_advance, Nat.add_0_r.
  split.
  - intros Hs Hsl. rewrite Hs. cbn [Z.eqb].
    change (chr "*" =? chr "*") with true. cbv iota.
    replace (2 + n + 1)%nat with (3 + n)%nat by lia.
    rewrite Hsl. change (chr "/" =? chr "/") with true. cbv iota.
    cbn [bind]. rewrite advance_advance.
    replace (2 + n + 2)%nat with (4 + n)%nat by lia. reflexivity.
  - intros Hend.
    assert (He : ptr (advance (2 + n) st) = endPtr (advance (2 + n) st))
      by exact Hend.
    pose proof (peek_at_end _ He) as Hp.
    rewrite peek_advance, Nat.add_0_r in Hp. rewrite Hp.
    change (0 =? chr "*") with false. cbv iota.
    cbn [Z.eqb]. rewrite He, Nat.eqb_refl. split; reflexivity.
Qed.

Lemma lexToken_loop_multi_line_comment_witness :
  let st := Lexer_new (bytes_of_string "/* open") "a.ts" in
  let tok := Token.mk Semicolon 1 1 (mkStringRef 0 0) false in
  peek st 0 = Some (chr "/") /\ peek st 1 = Some (chr "*")
  /\ (ptr st + 7)%nat = endPtr st
  /\ exists st',
       lexToken_loop (mkUserOpts true) 7 st false tok =
         Ret (st', Token.set tok FileEnd 1 8 false)
       /\ errs st'
          = [mkDiagnostic "a.ts" 1 8 UnexpectedEndOfFileInComment]
       /\ lexerFailed st' = false.
Proof.
  intros st tok. do 3 (split; [reflexivity |]).
  eexists. split.
  - refine (proj1 (proj2 (lexToken_loop_multi_line_comment
                            (mkUserOpts true) 5 0 st false tok
                            eq_refl eq_refl _) eq_refl)).
    small_index.
  - split; reflexivity.
Defined.

Lemma lexSingleLineComment_loop_null fuel : forall n st alt tok,
  (forall i, (i < n)%nat ->
     exists b, peek st i = Some b /\ plainCommentByte b = true) ->
  peek st n = Some 0 -> (ptr st + n)%nat <> endPtr st ->
  lexSingleLineComment_loop fuel st alt tok = OutOfFuel.
Proof.
  induction fuel as [| f IH]; intros n st alt tok Hb Hz Hne;
    [reflexivity |].
  cbn [lexSingleLineComment_loop]. destruct n as [| n].
  - rewrite Hz. cbn [Z.eqb].
    destruct (Nat.eqb_spec (ptr st) (endPtr st)) as [E | _]; [lia |].
    apply (IH 0%nat); [intros i Hi; lia | exact Hz | exact Hne].
  - destruct (Hb 0%nat) as (b & Hp & Hpl); [lia |].
    destruct (plainCommentByte_tests b Hpl) as (E0 & E1 & E2 & Ea).
    rewrite Hp, E0, E1, E2, Ea.
    apply (IH n).
    + intros i Hi. rewrite peek_advance. apply (Hb (S i)). lia.
    + rewrite peek_advance. exact Hz.
    + unfold endPtr in *. simpl. lia.
Qed.

Lemma lexMultiLineComment_loop_null fuel : forall n st alt tok,
  (forall i, (i < n)%nat ->
     exists b, peek st i = Some b /\ plainBlockByte b = true) ->
  peek st n = Some 0 -> (ptr st + n)%nat <> endPtr st ->
  lexMultiLineComment_loop fuel st alt tok = OutOfFuel.
Proof.
  induction fuel as [| f IH]; intros n st alt tok Hb Hz Hne;
    [reflexivity |].
  cbn [lexMultiLineComment_loop]. destruct n as [| n].
  - rewrite Hz. change (0 =? chr "*") with false. cbv iota. cbn [Z.eqb].
    destruct (Nat.eqb_spec (ptr st) (endPtr st)) as [E | _]; [lia |].
    apply (IH 0%nat); [intros i Hi; lia | exact Hz | exact Hne].
  - destruct (Hb 0%nat) as (b & Hp & Hpl); [lia |].
    unfold plainBlockByte in Hpl. apply andb_true_iff in Hpl.
    destruct Hpl as [Hpl Hs]. apply negb_true_iff in Hs.
    destruct (plainCommentByte_tests b Hpl) as (E0 & E1 & E2 & Ea).
    rewrite Hp, Hs, E0, E1, E2, Ea.
    apply (IH n).
    + intros i Hi. rewrite peek_advance. apply (Hb (S i)).  lia.
    + rewrite peek_advance. exact Hz.
    + unfold endPtr in *. simpl. lia.
Qed.

(** X12.  A NUL byte inside a comment that is not the end of the buffer
    stops the scan for good: after [//] or [/*] and [n] plain bytes, the
    comment scanner reports the NUL, leaves the pointer on it and meets it
    again, so the call of [lexToken] does not return for any amount of
    fuel. *)
Theorem lexToken_loop_null_in_comment opts n st alt tok c1 :
  peek st 0 = Some (chr "/") -> peek st 1 = Some c1 ->
  (c1 = chr "/"
   /\ forall i, (i < n)%nat ->
        exists b, peek st (2 + i) = Some b /\ plainCommentByte b = true)
  \/ (c1 = chr "*"
      /\ forall i, (i < n)%nat ->
           exists b, peek st (2 + i) = Some b /\ plainBlockByte b = true) ->
  peek st (2 + n) = Some 0 -> (ptr st + (2 + n))%nat <> endPtr st ->
  forall fuel, lexToken_loop opts fuel st alt tok = OutOfFuel.
Proof.
  intros H0 H1 Hcase Hz Hne fuel.
  destruct fuel as [| [| f]]; [reflexivity | reflexivity |].
  destruct Hcase as [[-> Hb] | [-> Hb]].
  - rewrite (lexToken_loop_enters_single_line_comment opts f st alt tok
               H0 H1).
    unfold lexSingleLineComment.
    rewrite (lexSingleLineComment_loop_null (S f) n); [reflexivity | | |].
    + intros i Hi. rewrite peek_advance. now apply Hb.
    + rewrite peek_advance. exact Hz.
    + unfold endPtr in *. simpl. lia.
  - rewrite (lexToken_loop_enters_multi_line_comment opts f st alt tok
               H0 H1).
    unfold lexMultiLineComment.
    rewrite (lexMultiLineComment_loop_null (S f) n); [reflexivity | | |].
    + intros i Hi. rewrite peek_advance. now apply Hb.
    + rewrite peek_advance. exact Hz.
    + unfold endPtr in *. simpl. lia.
Qed.

Lemma lexToken_loop_null_in_comment_witness :
  let st := Lexer_new [chr "/"; chr "*"; chr "a"; 0; chr "*"; chr "/"]
              "a.ts" in
  let tok := Token.mk FileEnd 0 0 (mkStringRef 0 0) false in
  peek st 0 = Some (chr "/") /\ peek st 1 = Some (chr "*")
  /\ peek st 3 = Some 0 /\ (ptr st + 3)%nat <> endPtr st
  /\ forall fuel,
       lexToken_loop (mkUserOpts true) fuel st false tok = OutOfFuel.
Proof.
  intros st tok. do 3 (split; [reflexivity |]).
  assert (Hne : (ptr st + 3)%nat <> endPtr st) by discriminate.
  split; [exact Hne |].
  refine (lexToken_loop_null_in_comment (mkUserOpts true) 1 st false tok
            (chr "*") eq_refl eq_refl (or_intror (conj eq_refl _))
            eq_refl Hne).
  small_index.
Defined.

(** ** The digit tests *)

Lemma bytes_all (P : byte -> bool) :
  forallb P (map Z.of_nat (seq 0 256)) = true ->
  forall x, 0 <= x < 256 -> P x = true.
Proof.
  intros H x Hx. rewrite forallb_forall in H. apply H.
  apply in_map_iff. exists (Z.to_nat x). split; [lia |].
  apply in_seq. lia.
Qed.

(** X13.  For every byte value the digit macros, which subtract ['0'] in
    unsigned 32-bit arithmetic after a sign-extending conversion, accept
    exactly the bytes of the case labels of the digit loops: [isDigit] the
    bytes ['0'] to ['9'] and [isOctalDigit] the bytes ['0'] to ['7'], and
    no byte of 0x80 or above. *)
Theorem digit_macros_agree_with_case_labels x :
  0 <= x < 256 ->
  isDigit x = caseDecimal x
  /\ isOctalDigit x = caseOctal x
  /\ isBinaryDigit x = caseBinary x
  /\ (128 <= x -> isDigit x = false).
Proof.
  intros Hx.
  pose proof (bytes_all
    (fun b => Bool.eqb (isDigit b) (caseDecimal b)
              && Bool.eqb (isOctalDigit b) (caseOctal b)
              && Bool.eqb (isBinaryDigit b) (caseBinary b)
              && ((b <? 128) || negb (isDigit b)))
    ltac:(vm_compute; reflexivity) x Hx) as H.
  cbv beta in H.
  repeat (apply andb_true_iff in H; destruct H as [H ?]).
  repeat match goal with
         | E : Bool.eqb _ _ = true |- _ => apply Bool.eqb_prop in E
         end.
  do 3 (split; [assumption |]).
  intros Hhi.
  match goal with
  | E : (_ <? _) || _ = true |- _ =>
      apply orb_true_iff in E; destruct E as [E | E];
      [apply Z.ltb_lt in E; lia | now apply negb_true_iff in E]
  end.
Qed.

Lemma digit_macros_agree_with_case_labels_witness :
  0 <= 0xE2 < 256
  /\ isDigit 0xE2 = caseDecimal 0xE2
  /\ isOctalDigit 0xE2 = caseOctal 0xE2
  /\ isBinaryDigit 0xE2 = caseBinary 0xE2
  /\ (128 <= 0xE2 -> isDigit 0xE2 = false).
Proof.
  assert (H : 0 <= 0xE2 < 256) by lia.
  split; [exact H |].
  exact (digit_macros_agree_with_case_labels 0xE2 H).
Defined.

(** ** Radix-prefixed literals *)

Section RadixLiteralRuns.

Variable caseDigit isRadixDigit : byte -> bool.
Variable literal bigIntLiteral : TokenKind.
Variable type prefix : string.

Lemma lexRadixLiteral_loop_digits n : forall fuel sp sc alt st tok,
  (forall i, (i < n)%nat ->
     exists d, peek st i = Some d /\ caseDigit d = true) ->
  lexRadixLiteral_loop caseDigit isRadixDigit literal bigIntLiteral
    (n + fuel) sp sc alt st tok =
  lexRadixLiteral_loop caseDigit isRadixDigit literal bigIntLiteral
    fuel sp sc alt (advance n st) tok.
Proof.
  induction n as [| n IH]; intros fuel sp sc alt st tok Hdig.
  - now rewrite advance_0.
  - change (S n + fuel)%nat with (S (n + fuel)).
    cbn [lexRadixLiteral_loop].
    destruct (Hdig 0%nat) as (d & Hd & Hdd); [lia |].
    rewrite Hd, Hdd. rewrite IH.
    + now rewrite advance_advance.
    + intros i Hi. rewrite peek_advance. apply (Hdig (S i)). lia.
Qed.

(** X14.  A radix-prefixed literal ([lexHexNumericLiteral],
    [lexOctalNumericLiteral], [lexBinaryNumericLiteral]): the two bytes of
    the prefix, a digit of the radix, [n] further digits, and then a byte
    that is no digit and no separator.  The token is placed at the [0] of
    the prefix, its lexeme is exactly the [S n] digits, without the prefix,
    and nothing is reported.  If the byte behind the digits is the suffix
    [n], the BigInt kind is written with the same lexeme and the suffix is
    consumed; otherwise the plain kind is written and the byte is left. *)
Theorem lexRadixLiteral_digits n fuel st alt tok d0 t :
  peek st 2 = Some d0 -> isRadixDigit d0 = true ->
  (forall i, (i < n)%nat ->
     exists d, peek st (3 + i) = Some d /\ caseDigit d = true) ->
  peek st (3 + n) = Some t ->
  caseDigit t = false -> t <> chr "_" ->
  (t <> chr "n" ->
   lexRadixLiteral caseDigit isRadixDigit literal bigIntLiteral type prefix
     (S n + fuel) st alt tok =
     Ret (advance (3 + n) st,
          Token.setText tok literal (line st) (col st) alt
            (mkStringRef (ptr st + 2) (S n))))
  /\ (t = chr "n" ->
      lexRadixLiteral caseDigit isRadixDigit literal bigIntLiteral type
        prefix (S n + fuel) st alt tok =
        Ret (advance (4 + n) st,
             Token.setText tok bigIntLiteral (line st) (col st) alt
               (mkStringRef (ptr st + 2) (S n)))).
Proof.
  intros H2 Hd0 Hdig Ht Hc Hu.
  assert (Hgo :
    lexRadixLiteral caseDigit isRadixDigit literal bigIntLiteral type prefix
      (S n + fuel) st alt tok =
    lexRadixLiteral_loop caseDigit isRadixDigit literal bigIntLiteral
      (S fuel) (ptr st + 2) (col st) alt (advance (3 + n) st) tok).
  { unfold lexRadixLiteral. rewrite peek_advance, Nat.add_0_r, H2, Hd0.
    cbn [negb]. replace (S n + fuel)%nat with (n + S fuel)%nat by lia.
    rewrite lexRadixLiteral_loop_digits.
    - rewrite !advance_advance. reflexivity.
    - intros i Hi. rewrite !peek_advance.
      replace (2 + (1 + i))%nat with (3 + i)%nat by lia. now apply Hdig. }
  rewrite Hgo. cbn [lexRadixLiteral_loop].
  rewrite peek_advance, Nat.add_0_r, Ht, Hc.
  apply Z.eqb_neq in Hu. rewrite Hu.
  split.
  - intros Hn. apply Z.eqb_neq in Hn. rewrite Hn.
    unfold lexeme. repeat f_equal. simpl. lia.
  - intros ->. change (chr "n" =? chr "n") with true. cbv iota.
    rewrite advance_advance.
    replace (3 + n + 1)%nat with (4 + n)%nat by lia.
    unfold lexeme. repeat f_equal. simpl. lia.
Qed.

(** X15.  An invalid separator in a radix-prefixed literal: prefix, a digit,
    [n] further digits, and [_] followed by a byte that is no digit of the
    radix.  The literal ends in front of the separator, which is consumed
    but not part of the lexeme, and one diagnostic is reported.  The column
    is incremented once by the diagnostic helper and once more by the
    scanner, so it advances by one more than the pointer does. *)
Theorem lexRadixLiteral_invalid_separator n fuel st alt tok d0 c :
  peek st 2 = Some d0 -> isRadixDigit d0 = true ->
  (forall i, (i < n)%nat ->
     exists d, peek st (3 + i) = Some d /\ caseDigit d = true) ->
  peek st (3 + n) = Some (chr "_") -> caseDigit (chr "_") = false ->
  peek st (4 + n) = Some c -> isRadixDigit c = false ->
  exists st',
    lexRadixLiteral caseDigit isRadixDigit literal bigIntLiteral type prefix
      (S n + fuel) st alt tok =
      Ret (st', Token.setText tok literal (line st) (col st) alt
                  (mkStringRef (ptr st + 2) (S n)))
    /\ ptr st' = (ptr st + (4 + n))%nat
    /\ col st' = col st + Z.of_nat (4 + n) + 1
    /\ errs st' =
         errs st ++ [mkDiagnostic (filePath st) (line st)
                       (col st + Z.of_nat (3 + n) + 1)
                       (InvalidNumericSeparator (chr "_"))]
    /\ lexerFailed st' = true.
Proof.
  intros H2 Hd0 Hdig Hsep Hcs Hc Hnd.
  assert (Hgo :
    lexRadixLiteral caseDigit isRadixDigit literal bigIntLiteral type prefix
      (S n + fuel) st alt tok =
    lexRadixLiteral_loop caseDigit isRadixDigit literal bigIntLiteral
      (S fuel) (ptr st + 2) (col st) alt (advance (3 + n) st) tok).
  { unfold lexRadixLiteral. rewrite peek_advance, Nat.add_0_r, H2, Hd0.
    cbn [negb]. replace (S n + fuel)%nat with (n + S fuel)%nat by lia.
    rewrite lexRadixLiteral_loop_digits.
    - rewrite !advance_advance. reflexivity.
    - intros i Hi. rewrite !peek_advance.
      replace (2 + (1 + i))%nat with (3 + i)%nat by lia. now apply Hdig. }
  rewrite Hgo. cbn [lexRadixLiteral_loop].
  rewrite !peek_advance, Nat.add_0_r, Hsep, Hcs.
  change (chr "_" =? chr "_") with true. cbv iota.
  replace (3 + n + 1)%nat with (4 + n)%nat by lia.
  rewrite Hc, Hnd. cbn [negb].
  unfold diagnoseInvalidNumericSeparator.
  assert (Hp : peek (with_col (advance (3 + n) st)
                       (col (advance (3 + n) st) + 1)) 0
               = Some (chr "_")).
  { change (peek (advance (3 + n) st) 0 = Some (chr "_")).
    now rewrite peek_advance, Nat.add_0_r. }
  rewrite Hp. cbn [bind].
  eexists. split; [| split; [| split; [| split]]].
  - unfold lexeme. repeat f_equal. simpl. lia.
  - simpl. lia.
  - simpl. lia.
  - simpl. repeat f_equal.
  - reflexivity.
Qed.

End RadixLiteralRuns.

Lemma lexRadixLiteral_digits_witness :
  let st := Lexer_new (bytes_of_string "0o17n;") "a.ts" in
  let tok := Token.mk FileEnd 0 0 (mkStringRef 0 0) false in
  peek st 2 = Some (chr "1") /\ isOctalDigit (chr "1") = true
  /\ peek st 4 = Some (chr "n") /\ caseOctal (chr "n") = false
  /\ lexOctalNumericLiteral 2 st false tok =
       Ret (advance 5 st,
            Token.setText tok OctalBigIntLiteral 1 1 false
              (mkStringRef 2 2)).
Proof.
  intros st tok. do 4 (split; [reflexivity |]).
  assert (Hu : chr "n" <> chr "_") by discriminate.
  refine (proj2 (lexRadixLiteral_digits caseOctal isOctalDigit OctalLiteral
                   OctalBigIntLiteral "octal" "0o" 1 0 st false tok
                   (chr "1") (chr "n") eq_refl eq_refl _ eq_refl eq_refl
                   Hu) eq_refl).
  small_index.
Defined.

Lemma lexRadixLiteral_invalid_separator_witness :
  let st := Lexer_new (bytes_of_string "0b1_2") "a.ts" in
  let tok := Token.mk FileEnd 0 0 (mkStringRef 0 0) false in
  peek st 2 = Some (chr "1") /\ isBinaryDigit (chr "1") = true
  /\ peek st 3 = Some (chr "_") /\ peek st 4 = Some (chr "2")
  /\ isBinaryDigit (chr "2") = false
  /\ exists st',
       lexBinaryNumericLiteral 1 st false tok =
         Ret (st', Token.setText tok BinaryLiteral 1 1 false
                     (mkStringRef 2 1))
       /\ ptr st' = 4%nat
       /\ col st' = 6
       /\ errs st' =
            [mkDiagnostic "a.ts" 1 5 (InvalidNumericSeparator (chr "_"))]
       /\ lexerFailed st' = true.
Proof.
  intros st tok. do 5 (split; [reflexivity |]).
  refine (lexRadixLiteral_invalid_separator caseBinary isBinaryDigit
            BinaryLiteral BinaryBigIntLiteral "binary" "0b" 0 0 st false
            tok (chr "1") (chr "2") eq_refl eq_refl _ eq_refl eq_refl
            eq_refl eq_refl).
  small_index.
Defined.

(** ** Separators inside a decimal literal *)

(** X16.  A separator between digits stays in the lexeme: after the first
    byte of a decimal literal, [n] digits, [_], a digit, [m] digits and a
    byte that ends the literal, [lexNumericLiteral] writes one
    [DecimalLiteral] whose lexeme is the whole run of [S n + 2 + m] bytes,
    separator included, and reports nothing. *)
Theorem lexNumericLiteral_separator_in_lexeme n m fuel st alt tok c1 t :
  (forall i, (i < n)%nat ->
     exists d, peek st (S i) = Some d /\ caseDecimal d = true) ->
  peek st (S n) = Some (chr "_") ->
  peek st (S n + 1) = Some c1 -> isDigit c1 = true ->
  (forall i, (i < m)%nat ->
     exists d, peek st (S n + 2 + i) = Some d /\ caseDecimal d = true) ->
  peek st (S n + 2 + m) = Some t ->
  caseDecimal t = false -> t <> chr "_" -> t <> chr "n" -> t <> chr "." ->
  lexNumericLiteral (n + (S (m + S fuel))) st alt tok =
    Ret (advance (S n + 2 + m) st,
         Token.setText tok DecimalLiteral (line st) (col st) alt
           (mkStringRef (ptr st) (S n + 2 + m)))
  /\ errs (advance (S n + 2 + m) st) = errs st.
Proof.
  intros Hn Hsep Hc1 Hd1 Hm Ht Hc Hu Hnn Hp.
  split; [| reflexivity].
  unfold lexNumericLiteral.
  rewrite lexNumericLiteral_loop_digits.
  2: { intros i Hi. rewrite peek_advance. now apply Hn. }
  rewrite advance_advance. cbn [lexNumericLiteral_loop].
  rewrite !peek_advance.
  replace (1 + n + 0)%nat with (S n) by lia.
  replace (1 + n + 1)%nat with (S n + 1)%nat by lia.
  rewrite Hsep. change (caseDecimal (chr "_")) with false.
  change (chr "_" =? chr "_") with true. cbv iota.
  rewrite Hc1, Hd1. cbn [negb]. rewrite advance_advance.
  rewrite lexNumericLiteral_loop_digits.
  2: { intros i Hi. rewrite peek_advance.
       replace (1 + n + 2 + i)%nat with (S n + 2 + i)%nat by lia.
       now apply Hm. }
  rewrite advance_advance. cbn [lexNumericLiteral_loop].
  rewrite peek_advance.
  replace (1 + n + 2 + m + 0)%nat with (S n + 2 + m)%nat by lia.
  apply Z.eqb_neq in Hu, Hnn, Hp. rewrite Ht, Hc, Hu, Hnn, Hp.
  replace (1 + n + 2 + m)%nat with (S n + 2 + m)%nat by lia.
  assert (Hl : lexeme (ptr st) (advance (S n + 2 + m) st)
               = mkStringRef (ptr st) (S n + 2 + m)).
  { unfold lexeme. f_equal. simpl. lia. }
  now rewrite Hl.
Qed.

Lemma lexNumericLiteral_separator_in_lexeme_witness :
  let st := Lexer_new (bytes_of_string "1_000;") "a.ts" in
  let tok := Token.mk FileEnd 0 0 (mkStringRef 0 0) false in
  peek st 1 = Some (chr "_") /\ peek st 2 = Some (chr "0")
  /\ isDigit (chr "0") = true /\ peek st 5 = Some (chr ";")
  /\ lexNumericLiteral 4 st false tok =
       Ret (advance 5 st,
            Token.setText tok DecimalLiteral 1 1 false (mkStringRef 0 5))
  /\ errs (advance 5 st) = [].
Proof.
  intros st tok. do 4 (split; [reflexivity |]).
  assert (H1 : chr ";" <> chr "_") by discriminate.
  assert (H2 : chr ";" <> chr "n") by discriminate.
  assert (H3 : chr ";" <> chr ".") by discriminate.
  refine (lexNumericLiteral_separator_in_lexeme 0 2 0 st false tok
            (chr "0") (chr ";") _ eq_refl eq_refl eq_refl _ eq_refl
            eq_refl H1 H2 H3).
  - small_index.
  - small_index.
Defined.

(** ** Bytes in front of the pointer *)

Section Relocate.

Variable pre : list byte.

Lemma peek_relocate st i : peek (relocate pre st) i = peek st i.
Proof.
  unfold peek, endPtr. simpl.
  rewrite <- Nat.add_assoc, nth_error_app2 by lia.
  replace (List.length pre + (ptr st + i) - List.length pre)%nat
    with (ptr st + i)%nat by lia.
  rewrite length_app.
  destruct (nth_error (buf st) (ptr st + i)); [reflexivity |].
  destruct (Nat.eqb_spec (ptr st + i) (List.length (buf st)));
    destruct (Nat.eqb_spec (List.length pre + (ptr st + i))
                (List.length pre + List.length (buf st)));
    try reflexivity; lia.
Qed.

Lemma at_end_relocate st :
  (ptr (relocate pre st) =? endPtr (relocate pre st))%nat
  = (ptr st =? endPtr st)%nat.
Proof.
  unfold endPtr. simpl. rewrite length_app.
  destruct (Nat.eqb_spec (ptr st) (List.length (buf st)));
    destruct (Nat.eqb_spec (List.length pre + ptr st)
                (List.length pre + List.length (buf st)));
    try reflexivity; lia.
Qed.

Lemma advance_relocate n st :
  advance n (relocate pre st) = relocate pre (advance n st).
Proof. unfold advance, relocate, with_col, with_ptr. simpl. f_equal. lia. Qed.

Lemma newline_relocate n st :
  newline n (relocate pre st) = relocate pre (newline n st).
Proof.
  unfold newline, relocate, with_col, with_ptr, with_line. simpl.
  f_equal. lia.
Qed.

Lemma with_col_relocate st c :
  with_col (relocate pre st) c = relocate pre (with_col st c).
Proof. reflexivity. Qed.

Lemma with_line_relocate st l :
  with_line (relocate pre st) l = relocate pre (with_line st l).
Proof. reflexivity. Qed.

Lemma with_ptr_relocate st n :
  with_ptr (relocate pre st) (ptr (relocate pre st) + n)
  = relocate pre (with_ptr st (ptr st + n)).
Proof. unfold relocate, with_ptr. simpl. f_equal. lia. Qed.

Lemma report_relocate st l c m :
  report (relocate pre st) l c m = relocate pre (report st l c m).
Proof. reflexivity. Qed.

Lemma print_relocate st l c m :
  print (relocate pre st) l c m = relocate pre (print st l c m).
Proof. reflexivity. Qed.

Lemma diagnoseUnexpectedNull_relocate st :
  diagnoseUnexpectedNull (relocate pre st)
  = relocate pre (diagnoseUnexpectedNull st).
Proof. reflexivity. Qed.

Lemma diagnoseInvalidUTF8_relocate st :
  diagnoseInvalidUTF8 (relocate pre st)
  = relocate pre (diagnoseInvalidUTF8 st).
Proof.
  unfold diagnoseInvalidUTF8, relocate, with_ptr, report. simpl.
  f_equal. lia.
Qed.

Lemma line_relocate st : line (relocate pre st) = line st.
Proof. reflexivity. Qed.

Lemma col_relocate st : col (relocate pre st) = col st.
Proof. reflexivity. Qed.

Lemma ptr_relocate st : ptr (relocate pre st) = (List.length pre + ptr st)%nat.
Proof. reflexivity. Qed.

Lemma lexeme_relocate sp st :
  lexeme (List.length pre + sp) (relocate pre st) = relocateRef (List.length pre) (lexeme sp st).
Proof.
  unfold lexeme, relocateRef. simpl. f_equal; lia.
Qed.

Lemma set_relocate tok K l c a :
  Token.set (relocateToken (List.length pre) tok) K l c a
  = relocateToken (List.length pre) (Token.set tok K l c a).
Proof. reflexivity. Qed.

Lemma setText_relocate tok K l c a x :
  Token.setText (relocateToken (List.length pre) tok) K l c a (relocateRef (List.length pre) x)
  = relocateToken (List.length pre) (Token.setText tok K l c a x).
Proof. reflexivity. Qed.

Lemma decodeUTF8_relocate st :
  decodeUTF8 (relocate pre st)
  = (let '(r, st1, cp) := decodeUTF8 st in (r, relocate pre st1, cp)).
Proof.
  unfold decodeUTF8. simpl.
  replace (skipn (List.length pre + ptr st) (pre ++ buf st))
    with (skipn (ptr st) (buf st)).
  - destruct (convertUTF8Sequence (skipn (ptr st) (buf st)))
      as [[r n] cp].
    unfold relocate, with_ptr. simpl. do 2 f_equal. f_equal. lia.
  - rewrite skipn_app.
    replace (List.length pre + ptr st - List.length pre)%nat
      with (ptr st) by lia.
    rewrite (skipn_all2 pre) by lia. reflexivity.
Qed.


Ltac reloc :=
  repeat progress
    rewrite ?peek_relocate, ?at_end_relocate, ?advance_relocate,
      ?newline_relocate, ?with_col_relocate, ?with_line_relocate,
      ?with_ptr_relocate, ?report_relocate, ?print_relocate,
      ?diagnoseUnexpectedNull_relocate, ?diagnoseInvalidUTF8_relocate,
      ?line_relocate, ?col_relocate, ?lexeme_relocate, ?set_relocate,
      ?setText_relocate, ?decodeUTF8_relocate.

Ltac split_eq :=
  match goal with
  | |- context [match peek ?s ?i with _ => _ end] =>
      destruct (peek s i) eqn:?
  | |- context [decodeUTF8 ?s] =>
      destruct (decodeUTF8 s) as [[? ?] ?]; cbv beta iota
  | |- context [if ?c then _ else _] => destruct c
  | |- context [diagnoseInvalidNumericSeparator ?s] =>
      unfold diagnoseInvalidNumericSeparator
  | |- context [diagnoseMalformedRadixInt _ _ ?s] =>
      unfold diagnoseMalformedRadixInt
  end.

Ltac reloc_loop IH :=
  repeat (reloc; split_eq); reloc;
  cbn [bind relocateOutcome relocateResult relocateComment
       relocateBlockComment fst snd];
  reloc;
  first [reflexivity | apply IH].

Lemma skipHorizontalWhitespace_relocate fuel : forall st,
  skipHorizontalWhitespace fuel (relocate pre st)
  = relocateOutcome pre (relocate pre) (skipHorizontalWhitespace fuel st).
Proof.
  induction fuel as [| f IH]; intros st; [reflexivity |].
  cbn [skipHorizontalWhitespace]. reloc_loop IH.
Qed.

Lemma lexSingleLineComment_loop_relocate fuel : forall st alt tok,
  lexSingleLineComment_loop fuel (relocate pre st) alt
    (relocateToken (List.length pre) tok)
  = relocateOutcome pre (relocateComment pre)
      (lexSingleLineComment_loop fuel st alt tok).
Proof.
  induction fuel as [| f IH]; intros st alt tok; [reflexivity |].
  cbn [lexSingleLineComment_loop]. reloc_loop IH.
Qed.

Lemma lexMultiLineComment_loop_relocate fuel : forall st alt tok,
  lexMultiLineComment_loop fuel (relocate pre st) alt
    (relocateToken (List.length pre) tok)
  = relocateOutcome pre (relocateBlockComment pre)
      (lexMultiLineComment_loop fuel st alt tok).
Proof.
  induction fuel as [| f IH]; intros st alt tok; [reflexivity |].
  cbn [lexMultiLineComment_loop]. reloc_loop IH.
Qed.

Lemma lexFloatLiteral_fraction_relocate fuel : forall st,
  lexFloatLiteral_fraction fuel (relocate pre st)
  = relocateOutcome pre (relocate pre) (lexFloatLiteral_fraction fuel st).
Proof.
  induction fuel as [| f IH]; intros st; [reflexivity |].
  cbn [lexFloatLiteral_fraction]. reloc_loop IH.
Qed.

Lemma lexFloatLiteral_exponent_relocate fuel : forall sp sc alt st tok,
  lexFloatLiteral_exponent fuel (List.length pre + sp) sc alt
    (relocate pre st) (relocateToken (List.length pre) tok)
  = relocateOutcome pre (relocateResult pre)
      (lexFloatLiteral_exponent fuel sp sc alt st tok).
Proof.
  induction fuel as [| f IH]; intros sp sc alt st tok; [reflexivity |].
  cbn [lexFloatLiteral_exponent]. reloc_loop IH.
Qed.

Lemma lexFloatLiteral_relocate fuel sp sc alt st tok :
  lexFloatLiteral fuel (List.length pre + sp) sc alt (relocate pre st)
    (relocateToken (List.length pre) tok)
  = relocateOutcome pre (relocateResult pre)
      (lexFloatLiteral fuel sp sc alt st tok).
Proof.
  unfold lexFloatLiteral. rewrite lexFloatLiteral_fraction_relocate.
  destruct (lexFloatLiteral_fraction fuel st) as [st1 | s |];
    cbn [bind relocateOutcome]; [| reflexivity | reflexivity].
  reloc_loop lexFloatLiteral_exponent_relocate.
Qed.

Lemma lexNumericLiteral_loop_relocate fuel : forall sp sc alt st tok,
  lexNumericLiteral_loop fuel (List.length pre + sp) sc alt
    (relocate pre st) (relocateToken (List.length pre) tok)
  = relocateOutcome pre (relocateResult pre)
      (lexNumericLiteral_loop fuel sp sc alt st tok).
Proof.
  induction fuel as [| f IH]; intros sp sc alt st tok; [reflexivity |].
  cbn [lexNumericLiteral_loop].
  repeat (reloc; split_eq); reloc;
    cbn [bind relocateOutcome relocateResult fst snd]; reloc;
    first [reflexivity | apply IH | apply lexFloatLiteral_relocate].
Qed.

Lemma lexRadixLiteral_loop_relocate caseDigit isRadixDigit literal
    bigIntLiteral fuel : forall sp sc alt st tok,
  lexRadixLiteral_loop caseDigit isRadixDigit literal bigIntLiteral fuel
    (List.length pre + sp) sc alt (relocate pre st)
    (relocateToken (List.length pre) tok)
  = relocateOutcome pre (relocateResult pre)
      (lexRadixLiteral_loop caseDigit isRadixDigit literal bigIntLiteral
         fuel sp sc alt st tok).
Proof.
  induction fuel as [| f IH]; intros sp sc alt st tok; [reflexivity |].
  cbn [lexRadixLiteral_loop]. reloc_loop IH.
Qed.

Lemma lexRadixLiteral_relocate caseDigit isRadixDigit literal bigIntLiteral
    type prefix fuel st alt tok :
  lexRadixLiteral caseDigit isRadixDigit literal bigIntLiteral type prefix
    fuel (relocate pre st) alt (relocateToken (List.length pre) tok)
  = relocateOutcome pre (relocateResult pre)
      (lexRadixLiteral caseDigit isRadixDigit literal bigIntLiteral type
         prefix fuel st alt tok).
Proof.
  unfold lexRadixLiteral.
  repeat (reloc; split_eq); reloc;
    cbn [bind relocateOutcome relocateResult fst snd]; reloc;
    rewrite ?ptr_relocate;
    first [reflexivity | apply lexRadixLiteral_loop_relocate].
Qed.

Lemma lexLegacyOctalLiteral_loop_relocate opts fuel :
  forall sp sc alt st tok,
    lexLegacyOctalLiteral_loop opts fuel (List.length pre + sp) sc alt
      (relocate pre st) (relocateToken (List.length pre) tok)
    = relocateOutcome pre (relocateResult pre)
        (lexLegacyOctalLiteral_loop opts fuel sp sc alt st tok).
Proof.
  induction fuel as [| f IH]; intros sp sc alt st tok; [reflexivity |].
  cbn [lexLegacyOctalLiteral_loop]. reloc_loop IH.
Qed.

Lemma lexStrLiteral_loop_relocate quote fuel : forall sp sc alt st tok,
  lexStrLiteral_loop quote fuel (List.length pre + sp) sc alt
    (relocate pre st) (relocateToken (List.length pre) tok)
  = relocateOutcome pre (relocateResult pre)
      (lexStrLiteral_loop quote fuel sp sc alt st tok).
Proof.
  induction fuel as [| f IH]; intros sp sc alt st tok; [reflexivity |].
  cbn [lexStrLiteral_loop]. reloc_loop IH.
Qed.


Lemma lexToken_loop_relocate opts fuel : forall st alt tok,
  lexToken_loop opts fuel (relocate pre st) alt
    (relocateToken (List.length pre) tok)
  = relocateOutcome pre (relocateResult pre)
      (lexToken_loop opts fuel st alt tok).
Proof.
  induction fuel as [| f IH]; intros st0 alt tok; [reflexivity |].
  cbn [lexToken_loop]. rewrite skipHorizontalWhitespace_relocate.
  destruct (skipHorizontalWhitespace f st0) as [st | s |];
    cbn [bind relocateOutcome]; [| reflexivity | reflexivity].
  unfold emit, lexNumericLiteral, lexHexNumericLiteral,
    lexOctalNumericLiteral, lexBinaryNumericLiteral, lexLegacyOctalLiteral,
    lexDoubleQuoteStrLiteral, lexSingleQuoteStrLiteral,
    lexSingleLineComment, lexMultiLineComment.
  reloc. rewrite ?ptr_relocate, <- ?Nat.add_assoc.
  rewrite ?lexSingleLineComment_loop_relocate,
    ?lexMultiLineComment_loop_relocate.
  repeat match goal with
  | |- context [match peek ?s ?i with _ => _ end] =>
      destruct (peek s i) eqn:?; [| reflexivity]
  | |- context [if Z.eqb ?a ?b then _ else _] => destruct (Z.eqb a b)
  | |- context [if Nat.eqb ?a ?b then _ else _] => destruct (Nat.eqb a b)
  | |- context [if orb ?a ?b then _ else _] => destruct (orb a b)
  | |- context [if andb ?a ?b then _ else _] => destruct (andb a b)
  | |- context [if caseOctal ?a then _ else _] => destruct (caseOctal a)
  end;
  reloc;
  try reflexivity;
  try apply IH;
  try apply lexNumericLiteral_loop_relocate;
  try apply lexFloatLiteral_relocate;
  try apply lexRadixLiteral_relocate;
  try apply lexLegacyOctalLiteral_loop_relocate;
  try apply lexStrLiteral_loop_relocate.
  - destruct (lexSingleLineComment_loop f (advance 2 st) alt tok)
      as [[[more st1] tok1] | s |];
      cbn [bind relocateOutcome relocateComment fst snd];
      [| reflexivity | reflexivity].
    destruct more; [apply IH | reflexivity].
  - destruct (lexMultiLineComment_loop f (advance 2 st) alt tok)
      as [[[[more st1] tok1] alt1] | s |];
      cbn [bind relocateOutcome relocateBlockComment fst snd];
      [| reflexivity | reflexivity].
    destruct more; [apply IH | reflexivity].
Qed.

End Relocate.

Lemma lexToken_repeat_relocate_steps pre opts fuel n : forall st tok,
  lexToken_repeat opts fuel n (relocate pre st)
    (relocateToken (List.length pre) tok)
  = relocateOutcome pre (relocateResult pre)
      (lexToken_repeat opts fuel n st tok).
Proof.
  induction n as [| n IH]; intros st tok; [reflexivity |].
  cbn [lexToken_repeat]. unfold lexToken.
  rewrite lexToken_loop_relocate.
  destruct (lexToken_loop opts fuel st false tok) as [[st1 tok1] | s |];
    cbn [bind relocateOutcome relocateResult fst snd];
    [apply IH | reflexivity | reflexivity].
Qed.

(** X17.  Bytes in front of the pointer play no part in a scan: over a
    buffer with [pre] put in front, from the same position in the text and
    with a slot whose text offset is shifted alike, any number of calls of
    [lexToken] ends in the same way, with the same token kinds, positions,
    flags and diagnostics; only the pointer and the text offsets are larger
    by the length of [pre]. *)
Theorem lexToken_repeat_relocate pre opts fuel n : forall st tok,
  lexToken_repeat opts fuel n (relocate pre st)
    (relocateToken (List.length pre) tok)
  = relocateOutcome pre (relocateResult pre)
      (lexToken_repeat opts fuel n st tok).
Proof. apply lexToken_repeat_relocate_steps. Qed.

Lemma Lexer_new_relocate pre b path :
  ptr (Lexer_new (pre ++ b) path) = List.length pre ->
  ptr (Lexer_new b path) = 0%nat ->
  Lexer_new (pre ++ b) path = relocate pre (Lexer_new b path).
Proof.
  intros H1 H2. unfold Lexer_new, relocate in *. simpl in *.
  rewrite H1, H2. f_equal. lia.
Qed.

(** X18.  A byte order mark is transparent.  For a buffer [b] that does not
    itself start with the mark, scanning the buffer EF BB BF [b] ends, after
    any number of calls, as scanning [b] does: same token kinds, lines,
    columns, flags and diagnostics, with the pointer and the text offsets
    larger by three. *)
Theorem lexToken_repeat_byte_order_mark opts fuel n b path tok :
  ptr (Lexer_new b path) = 0%nat ->
  lexToken_repeat opts fuel n (Lexer_new (0xef :: 0xbb :: 0xbf :: b) path)
    (relocateToken 3 tok)
  = relocateOutcome [0xef; 0xbb; 0xbf]
      (relocateResult [0xef; 0xbb; 0xbf])
      (lexToken_repeat opts fuel n (Lexer_new b path) tok).
Proof.
  intros Hb.
  pose proof (Lexer_new_relocate [0xef; 0xbb; 0xbf] b path eq_refl Hb)
    as E.
  rewrite <- lexToken_repeat_relocate_steps. f_equal. exact E.
Qed.

Lemma lexToken_repeat_byte_order_mark_witness :
  let b := bytes_of_string "= 'a'" in
  let tok := Token.mk FileEnd 0 0 (mkStringRef 0 0) false in
  ptr (Lexer_new b "a.ts") = 0%nat
  /\ lexToken_repeat (mkUserOpts true) 9 2
       (Lexer_new (0xef :: 0xbb :: 0xbf :: b) "a.ts")
       (relocateToken 3 tok)
     = relocateOutcome [0xef; 0xbb; 0xbf]
         (relocateResult [0xef; 0xbb; 0xbf])
         (lexToken_repeat (mkUserOpts true) 9 2
            (Lexer_new b "a.ts") tok)
  /\ exists st',
       lexToken_repeat (mkUserOpts true) 9 2 (Lexer_new b "a.ts") tok
       = Ret (st', Token.setText tok StringLiteral 1 3 false
                     (mkStringRef 3 1)).
Proof.
  intros b tok. split; [reflexivity |]. split.
  - exact (lexToken_repeat_byte_order_mark (mkUserOpts true) 9 2
             b "a.ts" tok eq_refl).
  - eexists. reflexivity.
Defined.

(** ** The line-terminator flag *)
























(** ** Float literals *)

Lemma lexFloatLiteral_exponent_digits n : forall fuel sp sc alt st tok,
  (forall i, (i < n)%nat ->
     exists d, peek st i = Some d /\ caseDecimal d = true) ->
  lexFloatLiteral_exponent (n + fuel) sp sc alt st tok =
    lexFloatLiteral_exponent fuel sp sc alt (advance n st) tok.
Proof.
  induction n as [| n IH]; intros fuel sp sc alt st tok Hdig.
  - now rewrite advance_0.
  - change (S n + fuel)%nat with (S (n + fuel)).
    cbn [lexFloatLiteral_exponent].
    destruct (Hdig 0%nat) as (d & Hd & Hdd); [lia |].
    rewrite Hd, Hdd. rewrite IH.
    + now rewrite advance_advance.
    + intros i Hi. rewrite peek_advance. apply (Hdig (S i)). lia.
Qed.

(** X20.  A float literal with an exponent: the point, [n] fraction digits,
    [e] or [E], an optional sign, [m] exponent digits and then a byte that
    is neither a digit nor the separator.  [lexFloatLiteral] reports
    nothing, stops on that byte and writes a [FloatLiteral] whose lexeme
    runs from [startPtr] to the last exponent digit. *)
Theorem lexFloatLiteral_with_exponent
    fuel startPtr startCol alt st tok n m e s c :
  (forall i, (i < n)%nat ->
     exists d, peek st (S i) = Some d /\ isDigit d = true) ->
  peek st (S n) = Some e ->
  e = chr "e" \/ e = chr "E" ->
  peek st (S (S n)) = Some s ->
  let k := if (s =? chr "+") || (s =? chr "-") then 2%nat else 1%nat in
  (forall j, (j < m)%nat ->
     exists d, peek st (S n + k + j) = Some d /\ caseDecimal d = true) ->
  peek st (S n + k + m) = Some c ->
  caseDecimal c = false ->
  c <> chr "_" ->
  lexFloatLiteral (S n + (m + fuel)) startPtr startCol alt st tok =
    Ret (advance (S n + k + m) st,
         Token.setText tok FloatLiteral (line st) startCol alt
           (mkStringRef startPtr (ptr st + (S n + k + m) - startPtr)))
  /\ errs (advance (S n + k + m) st) = errs st
  /\ lexerFailed (advance (S n + k + m) st) = lexerFailed st.
Proof.
  intros Hdig He Hee Hs k Hexpd Hc Hcd Hcu.
  split; [| split; reflexivity].
  assert (Hnd : isDigit e = false) by (destruct Hee; subst e; reflexivity).
  unfold lexFloatLiteral.
  rewrite (lexFloatLiteral_fraction_digits n (m + fuel) st e Hdig He Hnd).
  cbn [bind]. rewrite !peek_advance.
  replace (S n + 0)%nat with (S n) by lia.
  replace (S n + 1)%nat with (S (S n)) by lia.
  rewrite He, Hs.
  assert (Hexp : negb (e =? chr "e") && negb (e =? chr "E") = false)
    by (destruct Hee; subst e; reflexivity).
  rewrite Hexp. fold k.
  assert (Hadv : (if (s =? chr "+") || (s =? chr "-")
                  then advance 2 (advance (S n) st)
                  else advance 1 (advance (S n) st))
                 = advance (S n + k) st).
  { unfold k. destruct ((s =? chr "+") || (s =? chr "-"));
      now rewrite advance_advance. }
  rewrite Hadv.
  replace (S n + (m + fuel))%nat with (m + (S n + fuel))%nat by lia.
  rewrite lexFloatLiteral_exponent_digits.
  - rewrite advance_advance.
    cbn [Nat.add lexFloatLiteral_exponent].
    rewrite peek_advance.
    replace (S (n + k + m) + 0)%nat with (S n + k + m)%nat by lia.
    rewrite Hc, Hcd.
    assert (Hu : (c =? chr "_") = false) by now apply Z.eqb_neq.
    rewrite Hu. unfold lexeme. reflexivity.
  - intros j Hj. rewrite peek_advance. now apply Hexpd.
Qed.

Lemma lexFloatLiteral_with_exponent_witness :
  let st := Lexer_new (bytes_of_string "2.50e-12;") "a.ts" in
  let tok := Token.mk FileEnd 0 0 (mkStringRef 0 0) true in
  lexFloatLiteral (S 2 + (2 + 0)) 0 1 false (advance 1 st) tok =
    Ret (advance (S 2 + 2 + 2) (advance 1 st),
         Token.setText tok FloatLiteral 1 1 false (mkStringRef 0 8)).
Proof.
  intros st tok.
  refine (proj1 (lexFloatLiteral_with_exponent 0 0 1 false (advance 1 st)
                   tok 2 2 (chr "e") (chr "-") (chr ";") _ eq_refl
                   (or_introl eq_refl) eq_refl _ eq_refl eq_refl _)).
  - intros i Hi.
    destruct i as [| [| i]]; [eexists; split; reflexivity .. | lia].
  - intros j Hj.
    destruct j as [| [| j]]; [eexists; split; reflexivity .. | lia].
  - discriminate.
Defined.

(** X21.  A float literal seen from the dispatcher: a digit ['1'] to ['9'],
    [n] further digits, the point, [m] fraction digits and then a byte that
    is neither a digit nor [e] or [E].  The call writes a [FloatLiteral]
    placed at the first digit, whose lexeme is the digits, the point and
    the fraction; it stops on the byte behind them and reports nothing.
    With [m = 0] this holds as well: a point without fraction digits still
    ends a float literal. *)
Theorem lexToken_loop_float_literal opts n m fuel st alt tok d0 t :
  peek st 0 = Some d0 ->
  (chr "1" <=? d0) && (d0 <=? chr "9") = true ->
  (forall i, (i < n)%nat ->
     exists d, peek st (S i) = Some d /\ caseDecimal d = true) ->
  peek st (S n) = Some (chr ".") ->
  (forall i, (i < m)%nat ->
     exists d, peek st (S (S n) + i) = Some d /\ isDigit d = true) ->
  peek st (S (S n) + m) = Some t ->
  isDigit t = false -> t <> chr "e" -> t <> chr "E" ->
  lexToken_loop opts (S (n + S (S m + fuel))) st alt tok =
    Ret (advance (S (S n) + m) st,
         Token.setText tok FloatLiteral (line st) (col st) alt
           (mkStringRef (ptr st) (S (S n) + m)))
  /\ errs (advance (S (S n) + m) st) = errs st.
Proof.
  intros H0 Hd0 Hdig Hpt Hfrac Ht Htd Hte HtE.
  split; [| reflexivity].
  assert (Hne : forall v, (chr "1" <=? v) && (v <=? chr "9") = false ->
                          (d0 =? v) = false).
  { intros v Hv. apply Z.eqb_neq. intros ->. congruence. }
  assert (Hw : isHorizontalWhitespace d0 = false).
  { unfold isHorizontalWhitespace.
    rewrite !Hne by reflexivity. reflexivity. }
  cbn [lexToken_loop].
  replace (n + S (S m + fuel))%nat with (S (n + (S m + fuel))) by lia.
  rewrite (skipHorizontalWhitespace_stop _ st d0 H0 Hw).
  cbn [bind]. rewrite H0, Hd0.
  rewrite !Hne by reflexivity.
  unfold lexNumericLiteral.
  replace (S (n + (S m + fuel))) with (n + S (S m + fuel))%nat by lia.
  rewrite lexNumericLiteral_loop_digits
    by (intros i Hi; rewrite peek_advance; now apply Hdig).
  rewrite advance_advance.
  cbn [lexNumericLiteral_loop].
  rewrite peek_advance.
  replace (1 + n + 0)%nat with (S n) by lia.
  rewrite Hpt.
  change (caseDecimal (chr ".")) with false.
  change (chr "." =? chr "_") with false.
  change (chr "." =? chr "n") with false.
  change (chr "." =? chr ".") with true. cbv iota.
  unfold lexFloatLiteral.
  rewrite (lexFloatLiteral_fraction_digits m fuel (advance (1 + n) st) t).
  - cbn [bind]. rewrite advance_advance, peek_advance.
    replace (1 + n + S m + 0)%nat with (S (S n) + m)%nat by lia.
    rewrite Ht.
    apply Z.eqb_neq in Hte, HtE. rewrite Hte, HtE. cbn [negb andb].
    replace (1 + n + S m)%nat with (S (S n) + m)%nat by lia.
    assert (E : lexeme (ptr st) (advance (S (S n) + m) st)
                = mkStringRef (ptr st) (S (S n) + m)).
    { unfold lexeme. f_equal. simpl. lia. }
    rewrite E. reflexivity.
  - intros i Hi. rewrite peek_advance.
    replace (1 + n + S i)%nat with (S (S n) + i)%nat by lia.
    now apply Hfrac.
  - rewrite peek_advance.
    replace (1 + n + S m)%nat with (S (S n) + m)%nat by lia. exact Ht.
  - exact Htd.
Qed.

Lemma lexToken_loop_float_literal_witness :
  let st := Lexer_new (bytes_of_string "31.25;") "a.ts" in
  let tok := Token.mk FileEnd 0 0 (mkStringRef 0 0) true in
  lexToken_loop (mkUserOpts true) (S (1 + S (S 2 + 0))) st false tok =
    Ret (advance (S (S 1) + 2) st,
         Token.setText tok FloatLiteral 1 1 false (mkStringRef 0 5)).
Proof.
  intros st tok.
  refine (proj1 (lexToken_loop_float_literal (mkUserOpts true) 1 2 0 st
                   false tok (chr "3") (chr ";") eq_refl eq_refl _ eq_refl
                   _ eq_refl eq_refl _ _)).
  - intros i Hi.
    destruct i as [| i]; [eexists; split; reflexivity | lia].
  - intros i Hi.
    destruct i as [| [| i]]; [eexists; split; reflexivity .. | lia].
  - discriminate.
  - discriminate.
Defined.
